(** * run_cmrc2019_baseline.py: windows, max-context ownership, feature masks,
      span alignment and the answer auction of [write_predictions].

    Python integers are modelled as [Z]; a Python float as the rational
    [Q] it denotes, every float operation rounding its exact result to
    binary64 ([round64]); tokens, answer ids and candidate texts as
    [string]; the texts [get_final_text] aligns character by character as
    lists of code points; lists as [list]; and the insertion-ordered
    dictionaries of [write_predictions] as association lists. *)

From Stdlib Require Import ZArith QArith Qround Qpower SpecFloat.
From Stdlib Require Import List String Ascii Bool Lia Lqa Arith.
From Stdlib Require Import DecimalString DecimalNat.
Import ListNotations.
Local Open Scope Z_scope.

(** ** Python list and string primitives used by the source *)

Module Py.

(** [xs[i]] for an integer index: negative indices count from the end,
    anything out of range raises (here: [None]). *)
Definition index {A} (xs : list A) (i : Z) : option A :=
  let n := Z.of_nat (List.length xs) in
  if (0 <=? i) && (i <? n) then nth_error xs (Z.to_nat i)
  else if (i <? 0) && (0 <=? i + n) then nth_error xs (Z.to_nat (i + n))
  else None.

(** [xs[i] = v]: same index rule, raises out of range. *)
Fixpoint set_nth {A} (xs : list A) (n : nat) (v : A) : list A :=
  match xs, n with
  | [], _ => []
  | _ :: t, O => v :: t
  | h :: t, S m => h :: set_nth t m v
  end.

Definition store {A} (xs : list A) (i : Z) (v : A) : option (list A) :=
  let n := Z.of_nat (List.length xs) in
  if (0 <=? i) && (i <? n) then Some (set_nth xs (Z.to_nat i) v)
  else if (i <? 0) && (0 <=? i + n) then Some (set_nth xs (Z.to_nat (i + n)) v)
  else None.

(** [xs[1:]] *)
Definition tail1 {A} (xs : list A) : list A := List.tl xs.

(** [xs[0:b]]: a negative [b] counts from the end. *)
Definition slice_to {A} (xs : list A) (b : Z) : list A :=
  if b <? 0 then firstn (Z.to_nat (Z.of_nat (List.length xs) + b)) xs
  else firstn (Z.to_nat b) xs.

Fixpoint prefixb (p s : string) : bool :=
  match p, s with
  | EmptyString, _ => true
  | String a p', String b s' => Ascii.eqb a b && prefixb p' s'
  | String _ _, EmptyString => false
  end.

(** [s.find(p)]: [Some] of the first offset at which [p] occurs, [None]
    for Python's [-1]. *)
Fixpoint find (p s : string) : option nat :=
  if prefixb p s then Some O
  else match s with
       | EmptyString => None
       | String _ s' => option_map S (find p s')
       end.

Definition contains (p s : string) : bool :=
  match find p s with Some _ => true | None => false end.

Fixpoint drop (n : nat) (s : string) : string :=
  match n, s with
  | O, _ => s
  | S m, String _ s' => drop m s'
  | S _, EmptyString => EmptyString
  end.

(** [s.replace(p, empty)] for a non-empty pattern [p]: occurrences are removed
    left to right, without overlap.  The recursion is on a bound [fuel] on
    the remaining length. *)
Fixpoint remove_fuel (fuel : nat) (p s : string) : string :=
  match fuel with
  | O => s
  | S f =>
      match s with
      | EmptyString => EmptyString
      | String c s' =>
          if prefixb p s then remove_fuel f p (drop (String.length p) s)
          else String c (remove_fuel f p s')
      end
  end.

Definition remove (p s : string) : string :=
  remove_fuel (String.length s) p s.

(** [" ".join(xs)] *)
Fixpoint join_space (xs : list string) : string :=
  match xs with
  | [] => EmptyString
  | [x] => x
  | x :: t => (x ++ " " ++ join_space t)%string
  end.

Definition is_digit (c : ascii) : bool :=
  let n := nat_of_ascii c in (48 <=? n)%nat && (n <=? 57)%nat.

Definition digit_val (c : ascii) : Z := Z.of_nat (nat_of_ascii c - 48).

(** The blanks [int(...)] skips around an ASCII literal: tab, line feed,
    vertical tab, form feed, carriage return and space. *)
Definition is_space (c : ascii) : bool :=
  let n := nat_of_ascii c in
  ((9 <=? n)%nat && (n <=? 13)%nat) || (n =? 32)%nat.

Fixpoint lstrip (s : string) : string :=
  match s with
  | String c s' => if is_space c then lstrip s' else s
  | EmptyString => EmptyString
  end.

(** Digits of an [int(...)] literal after the sign: a digit, then digits
    with single underscores between them, then optional trailing blanks.
    [after_digit] tells whether the previous character was a digit. *)
Fixpoint only_space (s : string) : bool :=
  match s with
  | EmptyString => true
  | String c s' => is_space c && only_space s'
  end.

Fixpoint int_digits (s : string) (after_digit : bool) (acc : Z) : option Z :=
  match s with
  | EmptyString => if after_digit then Some acc else None
  | String c s' =>
      if is_digit c then int_digits s' true (10 * acc + digit_val c)
      else if Ascii.eqb c "_" then
        (if after_digit then int_digits s' false acc else None)
      else if is_space c then
        (if after_digit && only_space s' then Some acc else None)
      else None
  end.

(** [int(s)] for a string of ASCII characters; [None] is [ValueError].
    (Outside ASCII Python also reads the decimal digits and blanks of
    other scripts; statements that depend on it are restricted to ASCII
    text.) *)
Definition int (s : string) : option Z :=
  match lstrip s with
  | String "+" s' => int_digits s' false 0
  | String "-" s' => option_map Z.opp (int_digits s' false 0)
  | s' => int_digits s' false 0
  end.

(** [str(n)] for a natural number. *)
Definition str (n : nat) : string := NilEmpty.string_of_uint (Nat.to_uint n).

End Py.

(** ** Sliding windows of [convert_examples_to_features] *)

Record DocSpan := mkDocSpan { start : Z; length : Z }.

Definition span_end (d : DocSpan) : Z := start d + length d - 1.

(** The [while start_offset < len(all_doc_tokens)] loop.  [L] is
    [len(all_doc_tokens)] and [C] is [max_tokens_for_doc].
    The loop has no bound of its own, so the model carries [fuel]; [None]
    means the fuel ran out before the loop left. *)
Fixpoint doc_spans_from (fuel : nat) (L C doc_stride start_offset : Z)
  : option (list DocSpan) :=
  match fuel with
  | O => None
  | S f =>
      if start_offset <? L then
        let length0 := L - start_offset in
        let length := if length0 >? C then C else length0 in
        let sp := mkDocSpan start_offset length in
        if start_offset + length =? L then Some [sp]
        else option_map (cons sp)
               (doc_spans_from f L C doc_stride
                  (start_offset + Z.min length doc_stride))
      else Some []
  end.

Definition max_tokens_for_doc (max_seq_length query_len : Z) : Z :=
  max_seq_length - query_len - 3.

Definition doc_spans (fuel : nat) (L C doc_stride : Z)
  : option (list DocSpan) :=
  doc_spans_from fuel L C doc_stride 0.

Definition in_span (p : Z) (d : DocSpan) : Prop :=
  start d <= p <= span_end d.

(** ** [_check_is_max_context] *)

Definition Qltb (x y : Q) : bool :=
  match (x ?= y)%Q with Lt => true | _ => false end.

(** *** Python floats

    A finite float is the rational it denotes.  [round64] rounds a
    rational to the nearest binary64 number, ties to the even mantissa:
    53 bits of mantissa, exponents of the last mantissa bit from -1074
    (subnormal numbers) upwards.  Results of 2^1024 and beyond, where
    Python answers [inf] or raises [OverflowError], are outside the
    model. *)

Definition pow2 (k : Z) : Q := (2 ^ k)%Q.

(** The [k] with [2^k <= x < 2^(k+1)], for [x > 0]. *)
Definition floor_log2 (x : Q) : Z :=
  let k := Z.log2 (Qnum x) - Z.log2 (Zpos (Qden x)) in
  if Qle_bool (pow2 k) x then k else k - 1.

Definition round_half_even (x : Q) : Z :=
  let f := Qfloor x in
  match (x - inject_Z f ?= 1 # 2)%Q with
  | Lt => f
  | Gt => f + 1
  | Eq => if Z.even f then f else f + 1
  end.

Definition round64 (x : Q) : Q :=
  match (x ?= 0)%Q with
  | Eq => 0%Q
  | Gt =>
      let e := Z.max (floor_log2 x - 52) (-1074) in
      (inject_Z (round_half_even (x / pow2 e)) * pow2 e)%Q
  | Lt =>
      let e := Z.max (floor_log2 (- x) - 52) (-1074) in
      (- (inject_Z (round_half_even (- x / pow2 e)) * pow2 e))%Q
  end.

(** [float(z)], the conversion an integer operand undergoes. *)
Definition float_of_int (z : Z) : Q := round64 (inject_Z z).

Definition fadd (x y : Q) : Q := round64 (x + y).
Definition fsub (x y : Q) : Q := round64 (x - y).
Definition fmul (x y : Q) : Q := round64 (x * y).
Definition fdiv (x y : Q) : Q := round64 (x / y).

(** [min(num_left_context, num_right_context) + 0.01 * doc_span.length];
    the literal [0.01] is the binary64 number nearest to 1/100. *)
Definition span_score (d : DocSpan) (position : Z) : Q :=
  let num_left_context := position - start d in
  let num_right_context := span_end d - position in
  fadd (float_of_int (Z.min num_left_context num_right_context))
       (fmul (round64 (1 # 100)) (float_of_int (length d))).

(** The [for (span_index, doc_span) in enumerate(doc_spans)] loop, carrying
    [(best_score, best_span_index)]; [None] is Python's [None]. *)
Fixpoint best_span_loop (spans : list DocSpan) (span_index : nat)
    (position : Z) (best : option (Q * nat)) : option (Q * nat) :=
  match spans with
  | [] => best
  | doc_span :: rest =>
      let best' :=
        if position <? start doc_span then best
        else if position >? span_end doc_span then best
        else
          let score := span_score doc_span position in
          match best with
          | None => Some (score, span_index)
          | Some (best_score, _) =>
              if Qltb best_score score then Some (score, span_index) else best
          end in
      best_span_loop rest (S span_index) position best'
  end.

Definition best_span_index (spans : list DocSpan) (position : Z) : option nat :=
  option_map snd (best_span_loop spans 0 position None).

Definition _check_is_max_context (spans : list DocSpan) (cur_span_index : nat)
    (position : Z) : bool :=
  match best_span_index spans position with
  | Some b => Nat.eqb cur_span_index b
  | None => false
  end.

(** ** [convert_examples_to_features] *)

Record SquadExample := mkExample {
  question_text : string;
  doc_tokens : list string;
  position : option Z          (* [None] outside training *)
}.

Record InputFeatures := mkFeatures {
  unique_id : Z;
  example_index : nat;
  doc_span_index : nat;
  tokens : list string;
  token_to_orig_map : list (Z * Z);
  token_is_max_context : list (Z * bool);
  input_ids : list Z;
  input_mask : list Z;
  segment_ids : list Z;
  answer_position_mask : list Z;
  f_position : option Z
}.

(** What one turn of the [for (doc_span_index, doc_span)] loop does:
    raise, [continue] without a feature, or append a feature. *)
Inductive outcome :=
| Raised
| Dropped
| Kept (f : InputFeatures).

Fixpoint sequence {A} (xs : list (option A)) : option (list A) :=
  match xs with
  | [] => Some []
  | None :: _ => None
  | Some x :: t => option_map (cons x) (sequence t)
  end.

(** [range(n)] as Python integers. *)
Definition range (n : Z) : list Z := map Z.of_nat (seq 0 (Z.to_nat n)).

Definition len {A} (xs : list A) : Z := Z.of_nat (List.length xs).

(** [token.find("unused") > -1] *)
Definition has_unused (token : string) : bool := Py.contains "unused" token.

(** The [for word_index in range(len(tokens))] loop that fills the mask. *)
Fixpoint mask_loop (toks : list string) (word_index : Z) (mask : list Z)
  : option (list Z) :=
  match toks with
  | [] => Some mask
  | word :: rest =>
      if has_unused word then
        match Py.store mask word_index 1 with
        | Some mask' => mask_loop rest (word_index + 1) mask'
        | None => None
        end
      else mask_loop rest (word_index + 1) mask
  end.

Section Features.

Variable tokenize : string -> list string.     (* [tokenizer.tokenize] *)
Variable vocab : string -> option Z.           (* [convert_tokens_to_ids] *)

Definition query_tokens_of (question : string) (max_query_length : Z)
  : list string :=
  let q := tokenize question in
  if len q >? max_query_length
  then Py.slice_to q max_query_length
  else q.

Definition sub_tokens_of (token : string) : list string :=
  if has_unused token then [token] else tokenize token.

(** The [for (i, token) in enumerate(example.doc_tokens)] loop; returns
    [(orig_to_tok_index, tok_to_orig_index, all_doc_tokens)]. *)
Fixpoint split_doc (doc : list string) (i : Z) (n_all : Z)
  : list Z * list Z * list string :=
  match doc with
  | [] => ([], [], [])
  | token :: rest =>
      let sub := sub_tokens_of token in
      let '(o2t, t2o, all) := split_doc rest (i + 1) (n_all + len sub) in
      (n_all :: o2t, map (fun _ => i) sub ++ t2o, sub ++ all)
  end.

Definition pad (xs : list Z) (max_seq_length : Z) : list Z :=
  xs ++ repeat 0 (Z.to_nat (max_seq_length - len xs)).

(** One turn of the doc-span loop. *)
Definition span_feature (is_training : bool) (max_seq_length : Z)
    (ex : SquadExample) (query_tokens : list string)
    (tok_to_orig_index : list Z) (all_doc_tokens : list string)
    (tok_position : option Z) (spans : list DocSpan)
    (uid : Z) (ex_index span_index : nat) (doc_span : DocSpan) : outcome :=
  let head_tokens := "[CLS]"%string :: query_tokens ++ ["[SEP]"%string] in
  let idxs := map (fun i => start doc_span + i) (range (length doc_span)) in
  match sequence (map (Py.index tok_to_orig_index) idxs),
        sequence (map (Py.index all_doc_tokens) idxs) with
  | Some origs, Some window =>
      let keys := map (fun i => len head_tokens + i) (range (length doc_span)) in
      let t2o := combine keys origs in
      let tmc := combine keys
                   (map (_check_is_max_context spans span_index) idxs) in
      let toks := head_tokens ++ window ++ ["[SEP]"%string] in
      let seg := map (fun _ => 0) head_tokens
                 ++ map (fun _ => 1) window ++ [1] in
      match mask_loop toks 0 (repeat 0 (Z.to_nat max_seq_length)),
            sequence (map vocab toks) with
      | Some mask, Some ids =>
          if (len (pad ids max_seq_length) =? max_seq_length)
             && (len mask =? max_seq_length)
          then
            let mk pos :=
              Kept (mkFeatures uid ex_index span_index toks t2o tmc
                      (pad ids max_seq_length)
                      (pad (map (fun _ => 1) ids) max_seq_length)
                      (pad seg max_seq_length) mask pos) in
            if is_training then
              match position ex, tok_position with
              | Some ex_pos, Some tok_pos =>
                  let doc_start := start doc_span in
                  let doc_end := start doc_span + length doc_span - 1 in
                  if (ex_pos <? doc_start) || (ex_pos >? doc_end) then Dropped
                  else
                    let doc_offset := len query_tokens + 2 in
                    mk (Some (tok_pos - doc_start + doc_offset))
              | _, _ => Raised
              end
            else mk None
          else Raised
      | _, _ => Raised
      end
  | _, _ => Raised
  end.

(** The doc-span loop of one example, threading [unique_id]. *)
Fixpoint span_loop (is_training : bool) (max_seq_length : Z)
    (ex : SquadExample) (query_tokens : list string)
    (tok_to_orig_index : list Z) (all_doc_tokens : list string)
    (tok_position : option Z) (spans : list DocSpan)
    (uid : Z) (ex_index span_index : nat) (todo : list DocSpan)
  : option (list InputFeatures * Z) :=
  match todo with
  | [] => Some ([], uid)
  | doc_span :: rest =>
      let continue uid' :=
        span_loop is_training max_seq_length ex query_tokens
          tok_to_orig_index all_doc_tokens tok_position spans
          uid' ex_index (S span_index) rest in
      match span_feature is_training max_seq_length ex query_tokens
              tok_to_orig_index all_doc_tokens tok_position spans
              uid ex_index span_index doc_span with
      | Raised => None
      | Dropped => continue uid
      | Kept f =>
          option_map (fun '(fs, u) => (f :: fs, u)) (continue (uid + 1))
      end
  end.

(** The body of the [for (example_index, example)] loop.  [fuel] bounds the
    window loop; [None] is an exception or exhausted fuel. *)
Definition example_features (fuel : nat) (is_training : bool)
    (max_seq_length doc_stride max_query_length : Z)
    (uid : Z) (ex_index : nat) (ex : SquadExample)
  : option (list InputFeatures * Z) :=
  let query_tokens := query_tokens_of (question_text ex) max_query_length in
  let '(orig_to_tok_index, tok_to_orig_index, all_doc_tokens) :=
    split_doc (doc_tokens ex) 0 0 in
  let tok_position :=
    if is_training then
      match position ex with
      | Some p => Py.index orig_to_tok_index p
      | None => None
      end
    else None in
  if is_training && match tok_position with None => true | _ => false end
  then None
  else
    match doc_spans fuel (len all_doc_tokens)
            (max_tokens_for_doc max_seq_length (len query_tokens))
            doc_stride with
    | None => None
    | Some spans =>
        span_loop is_training max_seq_length ex query_tokens
          tok_to_orig_index all_doc_tokens tok_position spans
          uid ex_index 0 spans
    end.

Fixpoint examples_loop (fuel : nat) (is_training : bool)
    (max_seq_length doc_stride max_query_length : Z)
    (uid : Z) (ex_index : nat) (examples : list SquadExample)
  : option (list InputFeatures) :=
  match examples with
  | [] => Some []
  | ex :: rest =>
      match example_features fuel is_training max_seq_length doc_stride
              max_query_length uid ex_index ex with
      | None => None
      | Some (fs, uid') =>
          option_map (app fs)
            (examples_loop fuel is_training max_seq_length doc_stride
               max_query_length uid' (S ex_index) rest)
      end
  end.

Definition convert_examples_to_features (fuel : nat)
    (examples : list SquadExample) (max_seq_length doc_stride
    max_query_length : Z) (is_training : bool)
  : option (list InputFeatures) :=
  examples_loop fuel is_training max_seq_length doc_stride max_query_length
    1000000000 0 examples.

End Features.

(** ** [get_final_text] *)

(** [get_final_text] indexes its texts character by character ([find],
    [len], [enumerate], slicing), so a text is the list of its code
    points. *)
Definition unicode := list N.

Module Text.

Definition space : N := 32%N.

(** The code points of a string of ASCII characters. *)
Definition of_string (s : string) : unicode :=
  map (fun c => N.of_nat (nat_of_ascii c)) (list_ascii_of_string s).

Fixpoint prefixb (p s : unicode) : bool :=
  match p, s with
  | [], _ => true
  | a :: p', b :: s' => N.eqb a b && prefixb p' s'
  | _ :: _, [] => false
  end.

(** [s.find(p)]: [Some] of the first offset at which [p] occurs, [None]
    for Python's [-1]. *)
Fixpoint find (p s : unicode) : option nat :=
  if prefixb p s then Some O
  else match s with
       | [] => None
       | _ :: s' => option_map S (find p s')
       end.

(** [" ".join(xs)] *)
Fixpoint join_space (xs : list unicode) : unicode :=
  match xs with
  | [] => []
  | [x] => x
  | x :: t => x ++ space :: join_space t
  end.

(** [s[a:b]] for [0 <= a]. *)
Definition slice (s : unicode) (a b : Z) : unicode :=
  firstn (Z.to_nat (b - a)) (skipn (Z.to_nat a) s).

End Text.

(** [_strip_spaces]: the text without its spaces and [ns_to_s_map], the
    ordered map from positions of the stripped text to positions of
    [text].  [i] is the position in [text], [n] is [len(ns_chars)]. *)
Fixpoint _strip_spaces_from (text : unicode) (i n : Z)
  : unicode * list (Z * Z) :=
  match text with
  | [] => ([], [])
  | c :: rest =>
      if N.eqb c Text.space then _strip_spaces_from rest (i + 1) n
      else
        let '(ns, m) := _strip_spaces_from rest (i + 1) (n + 1) in
        (c :: ns, (n, i) :: m)
  end.

Definition _strip_spaces (text : unicode) : unicode * list (Z * Z) :=
  _strip_spaces_from text 0 0.

(** A dictionary with integer keys: [k in d] and [d[k]]. *)
Fixpoint zdict_get (d : list (Z * Z)) (k : Z) : option Z :=
  match d with
  | [] => None
  | (k', v) :: rest => if k' =? k then Some v else zdict_get rest k
  end.

(** [d[k] = v] on an insertion-ordered dictionary. *)
Fixpoint zdict_set (d : list (Z * Z)) (k v : Z) : list (Z * Z) :=
  match d with
  | [] => [(k, v)]
  | (k', v') :: rest =>
      if k' =? k then (k', v) :: rest else (k', v') :: zdict_set rest k v
  end.

(** [for (i, tok_index) in tok_ns_to_s_map.items(): tok_s_to_ns_map[tok_index] = i] *)
Definition invert_map (m : list (Z * Z)) : list (Z * Z) :=
  fold_left (fun acc '(i, tok_index) => zdict_set acc tok_index i) m [].

Section Aligner.

(** [BasicTokenizer(do_lower_case).tokenize] *)
Variable basic_tokenize : bool -> unicode -> list unicode.

Definition tok_text_of (do_lower_case : bool) (orig_text : unicode)
  : unicode :=
  Text.join_space (basic_tokenize do_lower_case orig_text).

(** Translation of a position of [tok_text] to a position of [orig_text]
    through the two stripped texts. *)
Definition map_position (tok_s_to_ns_map orig_ns_to_s_map : list (Z * Z))
    (p : Z) : option Z :=
  match zdict_get tok_s_to_ns_map p with
  | Some ns_position => zdict_get orig_ns_to_s_map ns_position
  | None => None
  end.

Definition get_final_text (pred_text orig_text : unicode)
    (do_lower_case : bool) : unicode :=
  let tok_text := tok_text_of do_lower_case orig_text in
  match Text.find pred_text tok_text with
  | None => orig_text
  | Some sp =>
      let start_position := Z.of_nat sp in
      let end_position := start_position + len pred_text - 1 in
      let '(orig_ns_text, orig_ns_to_s_map) := _strip_spaces orig_text in
      let '(tok_ns_text, tok_ns_to_s_map) := _strip_spaces tok_text in
      if negb (len orig_ns_text =? len tok_ns_text) then orig_text
      else
        let tok_s_to_ns_map := invert_map tok_ns_to_s_map in
        match map_position tok_s_to_ns_map orig_ns_to_s_map start_position with
        | None => orig_text
        | Some orig_start_position =>
            match map_position tok_s_to_ns_map orig_ns_to_s_map
                    end_position with
            | None => orig_text
            | Some orig_end_position =>
                Text.slice orig_text orig_start_position
                  (orig_end_position + 1)
            end
        end
  end.

End Aligner.

(** ** [write_predictions]: n-best lists *)

Record PrelimPrediction := mkPrelim {
  feature_index : nat;
  index : Z;
  logit : Q
}.

Record NbestPrediction := mkNbest { text : string; nb_logit : Q }.

(** [sorted(prelim_predictions, key=lambda x: x.logit, reverse=True)]:
    a stable sort, the larger logit first. *)
Fixpoint insert_desc (x : PrelimPrediction) (xs : list PrelimPrediction)
  : list PrelimPrediction :=
  match xs with
  | [] => [x]
  | y :: rest =>
      if Qltb (logit x) (logit y) then y :: insert_desc x rest
      else x :: y :: rest
  end.

Definition sorted_desc (xs : list PrelimPrediction) : list PrelimPrediction :=
  fold_right insert_desc [] xs.

Section NBest.

(** The text a preliminary prediction projects to: the sub-token at
    [pred.index] of its feature, de-tokenized and aligned by
    [get_final_text] with the original document token. *)
Variable final_text_of : PrelimPrediction -> string.

(** [math.exp] *)
Variable exp : Q -> Q.

(** The [for pred in prelim_predictions] loop. *)
Fixpoint nbest_loop (n_best_size : Z) (preds : list PrelimPrediction)
    (seen_predictions : list string) (nbest : list NbestPrediction)
  : list NbestPrediction :=
  match preds with
  | [] => nbest
  | pred :: rest =>
      if len nbest >=? n_best_size then nbest
      else
        let final_text := final_text_of pred in
        if existsb (String.eqb final_text) seen_predictions
        then nbest_loop n_best_size rest seen_predictions nbest
        else nbest_loop n_best_size rest (final_text :: seen_predictions)
               (nbest ++ [mkNbest final_text (logit pred)])
  end.

(** [if not nbest: nbest.append(_NbestPrediction(text="empty", logit=0.0))] *)
Definition with_placeholder (nbest : list NbestPrediction)
  : list NbestPrediction :=
  match nbest with
  | [] => [mkNbest "empty" 0%Q]
  | _ => nbest
  end.

Definition nbest_of (n_best_size : Z) (prelim_predictions : list PrelimPrediction)
  : list NbestPrediction :=
  with_placeholder
    (nbest_loop n_best_size (sorted_desc prelim_predictions) [] []).

Definition max_of (scores : list Q) : option Q :=
  fold_left (fun m score =>
               match m with
               | None => Some score
               | Some max_score =>
                   if Qltb max_score score then Some score else m
               end) scores None.

Definition _compute_softmax (scores : list Q) : list Q :=
  match max_of scores with
  | None => []
  | Some max_score =>
      let exp_scores := map (fun score => exp (fsub score max_score)) scores in
      let total_sum := fold_left fadd exp_scores 0%Q in
      map (fun score => fdiv score total_sum) exp_scores
  end.

(** [all_predictions[example.qas_id]]: the texts and their probabilities.
    The source keeps them as two parallel lists, built from the same
    [nbest_json] and always sliced together; they are paired here. *)
Definition prediction_value (n_best_size : Z)
    (prelim_predictions : list PrelimPrediction) : list (string * Q) :=
  let nbest := nbest_of n_best_size prelim_predictions in
  combine (map text nbest) (_compute_softmax (map nb_logit nbest)).

End NBest.

(** ** [write_predictions]: the auction over one document *)

(** Insertion-ordered dictionaries with string keys. *)
Section Dict.

Context {V : Type}.

Fixpoint dict_get (d : list (string * V)) (k : string) : option V :=
  match d with
  | [] => None
  | (k', v) :: rest => if String.eqb k' k then Some v else dict_get rest k
  end.

Fixpoint dict_set (d : list (string * V)) (k : string) (v : V)
  : list (string * V) :=
  match d with
  | [] => [(k, v)]
  | (k', v') :: rest =>
      if String.eqb k' k then (k', v) :: rest
      else (k', v') :: dict_set rest k v
  end.

Definition dict_keys (d : list (string * V)) : list string := map fst d.

End Dict.

Definition cands := list (string * Q).

(** One [[example, answer_id, value]] entry of [all_context_dict[context_id]];
    [n_answers] is [len(example.orig_answer_text)]. *)
Record doc_entry := mkEntry {
  n_answers : nat;
  answer_id : string;
  val : cands
}.

Record auction_state := mkState {
  answer_id_to_predict_val : list (string * cands);
  answer_text_dict : list (string * (Q * string))
}.

(** [answer_id_to_predict_val[answer_id] = val] for every entry. *)
Definition initial_predict_val (entries : list doc_entry)
  : list (string * cands) :=
  fold_left (fun d e => dict_set d (answer_id e) (val e)) entries [].

(** The body of [for key, value in answer_id_to_predict_val.items()] for one
    key; the second component is [is_update]. *)
Definition auction_step (key : string) (st : auction_state) (is_update : bool)
  : auction_state * bool :=
  let pv := answer_id_to_predict_val st in
  let atd := answer_text_dict st in
  match dict_get pv key with
  | None | Some [] => (st, is_update)
  | Some ((best_answer_text, best_answer_score) :: rest) =>
      match dict_get atd best_answer_text with
      | Some (score0, id0) =>
          if Qltb score0 best_answer_score then
            match dict_get pv id0 with
            | Some tmp_value =>
                (mkState (dict_set pv id0 (Py.tail1 tmp_value))
                   (dict_set atd best_answer_text (best_answer_score, key)),
                 true)
            | None => (st, is_update)
            end
          else if negb (String.eqb id0 key) then
            (mkState (dict_set pv key rest) atd, true)
          else (st, is_update)
      | None =>
          (mkState pv (dict_set atd best_answer_text (best_answer_score, key)),
           true)
      end
  end.

(** One full pass of the [for] loop, starting with [is_update = False]. *)
Fixpoint auction_keys (keys : list string) (st : auction_state)
    (is_update : bool) : auction_state * bool :=
  match keys with
  | [] => (st, is_update)
  | key :: rest =>
      let '(st', u) := auction_step key st is_update in
      auction_keys rest st' u
  end.

Definition auction_pass (st : auction_state) : auction_state * bool :=
  auction_keys (dict_keys (answer_id_to_predict_val st)) st false.

(** The [while True] loop; the result carries the number of passes run.
    [None]: the fuel ran out before a pass left [is_update] false. *)
Fixpoint auction_loop (fuel : nat) (st : auction_state)
  : option (auction_state * nat) :=
  match fuel with
  | O => None
  | S f =>
      let '(st', is_update) := auction_pass st in
      if is_update
      then option_map (fun '(s, n) => (s, S n)) (auction_loop f st')
      else Some (st', 1%nat)
  end.

(** The body of the final [for key, value_1 in ...items()] loop. *)
Definition target_slot (best : string) : option Z :=
  option_map (fun answer_pos => answer_pos - 1)
    (Py.int (Py.remove "]" (Py.remove "[unused" best))).

Definition write_back (out : list Z) (key : string) (value_1 : cands)
  : list Z :=
  match value_1 with
  | [] => out
  | (best, _) :: _ =>
      match target_slot best, Py.int key with
      | Some slot, Some choice =>
          match Py.store out slot choice with
          | Some out' => out'
          | None => out
          end
      | _, _ => out
      end
  end.

Definition output_of (blanks : nat) (pv : list (string * cands)) : list Z :=
  fold_left (fun out '(key, value_1) => write_back out key value_1) pv
    (repeat (-1) blanks).

(** [len(answer_position_to_id)]: the entry seen last decides. *)
Definition blanks_of (entries : list doc_entry) : nat :=
  n_answers (last entries (mkEntry 0 EmptyString [])).

Definition initial_state (entries : list doc_entry) : auction_state :=
  mkState (initial_predict_val entries) [].

(** [out_put_predict[final_id]] for one document. *)
Definition predict_document (fuel : nat) (entries : list doc_entry)
  : option (list Z) :=
  match auction_loop fuel (initial_state entries) with
  | Some (st, _) =>
      Some (output_of (blanks_of entries) (answer_id_to_predict_val st))
  | None => None
  end.

Definition total_candidates (pv : list (string * cands)) : nat :=
  list_sum (map (fun kv => List.length (snd kv)) pv).

(** ** Statements about the windows *)

(** The windows cover [0 .. L-1] and nothing else. *)
Definition covers (L : Z) (spans : list DocSpan) : Prop :=
  (forall p, 0 <= p <= L - 1 -> exists d, In d spans /\ in_span p d) /\
  (forall d p, In d spans -> in_span p d -> 0 <= p <= L - 1).

(** The window loop returns, every window takes [min(C, L - start)]
    tokens, the windows cover [0 .. L-1], and the last one ends at [L-1]. *)
Definition windows_ok (L C doc_stride : Z) : Prop :=
  exists fuel spans,
    doc_spans fuel L C doc_stride = Some spans /\
    (forall d, In d spans -> length d = Z.min C (L - start d)) /\
    covers L spans /\
    span_end (last spans (mkDocSpan 0 0)) = L - 1.

(** ** Statements about max-context ownership *)




(** The score as the IEEE 754 operations of [SpecFloat] compute it, for a
    smaller context [m] and a window length [l], and the rational a
    finite result denotes. *)
Definition B64_of_int (z : Z) : spec_float :=
  binary_normalize 53 1024 z 0 false.

Definition B64_score (m l : Z) : spec_float :=
  SFadd 53 1024 (B64_of_int m)
    (SFmul 53 1024 (S754_finite false 5764607523034235 (-59))
       (B64_of_int l)).

Definition B64_value (f : spec_float) : option Q :=
  match f with
  | S754_zero _ => Some 0%Q
  | S754_finite s m e =>
      Some ((if s then -1 else 1) * inject_Z (Zpos m) * pow2 e)%Q
  | _ => None
  end.

(** What the loop variable [(best_score, best_span_index)] means after the
    windows [seen] have been visited. *)
Definition best_inv (p : Z) (seen : list DocSpan) (best : option (Q * nat))
  : Prop :=
  match best with
  | None => forall j d, nth_error seen j = Some d -> ~ in_span p d
  | Some (s, i) =>
      exists d,
        nth_error seen i = Some d /\ in_span p d /\ s = span_score d p /\
        forall j dj,
          nth_error seen j = Some dj -> in_span p dj ->
          (span_score dj p <= s)%Q /\
          (span_score dj p == s -> (i <= j)%nat)%Q
  end.

(** ** Statements about [get_final_text] *)

Definition substring_of (p s : unicode) : Prop :=
  exists l r, s = l ++ p ++ r.

(** The text with every space removed. *)
Fixpoint without_spaces (s : unicode) : unicode :=
  match s with
  | [] => []
  | c :: rest =>
      if N.eqb c Text.space then without_spaces rest
      else c :: without_spaces rest
  end.

(** The four ways in which the alignment gives up: the prediction does not
    occur in the re-tokenized text, the two texts differ in length once
    their spaces are removed, or the first or the last character of the
    prediction has no image in the original text. *)
Definition alignment_fails (basic_tokenize : bool -> unicode -> list unicode)
    (pred_text orig_text : unicode) (do_lower_case : bool) : Prop :=
  let tok_text := tok_text_of basic_tokenize do_lower_case orig_text in
  let to_orig :=
    map_position (invert_map (snd (_strip_spaces tok_text)))
      (snd (_strip_spaces orig_text)) in
  ~ substring_of pred_text tok_text \/
  List.length (without_spaces orig_text)
    <> List.length (without_spaces tok_text) \/
  exists sp,
    Text.find pred_text tok_text = Some sp /\
    (to_orig (Z.of_nat sp) = None \/
     to_orig (Z.of_nat sp + len pred_text - 1) = None).

(** A tokenizer that splits at every space, for running the model. *)
Fixpoint split_spaces (s : unicode) (cur : unicode) : list unicode :=
  match s with
  | [] => match cur with [] => [] | _ => [cur] end
  | c :: rest =>
      if N.eqb c Text.space
      then match cur with
           | [] => split_spaces rest []
           | _ => cur :: split_spaces rest []
           end
      else split_spaces rest (cur ++ [c])
  end.

Definition space_tokenize (do_lower_case : bool) (s : unicode)
  : list unicode :=
  split_spaces s [].

(** A tokenizer that, like [BasicTokenizer], strips the accent of the
    letter e with acute (code point 233) and sets the exclamation mark
    (code point 33) apart as a token of its own. *)
Fixpoint split_accents (s : unicode) (cur : unicode) : list unicode :=
  match s with
  | [] => match cur with [] => [] | _ => [cur] end
  | c :: rest =>
      if N.eqb c 33 then
        match cur with
        | [] => [c] :: split_accents rest []
        | _ => cur :: [c] :: split_accents rest []
        end
      else split_accents rest (cur ++ [if N.eqb c 233 then 101%N else c])
  end.

Definition accent_tokenize (do_lower_case : bool) (s : unicode)
  : list unicode :=
  split_accents s [].

(** ** Statements about the answer-position mask *)

(** Position [i] of the encoded sequence lies in the window segment and
    its token is a blank marker (a document token that carries "unused"
    and was therefore kept whole). *)
Definition marker_position (query_tokens : list string) (f : InputFeatures)
    (i : nat) : Prop :=
  (List.length query_tokens + 2 <= i < List.length (tokens f) - 1)%nat /\
  exists w, nth_error (tokens f) i = Some w /\ has_unused w = true.

(** The mask is 1 exactly at the marker positions. *)
Definition mask_marks_markers (query_tokens : list string)
    (f : InputFeatures) : Prop :=
  forall i, nth_error (answer_position_mask f) i = Some 1
            <-> marker_position query_tokens f i.

(** Sample tokenizer and vocabulary for running the model: every token is
    a single piece, except that the character "x" is cleaned away. *)
Definition sample_tokenize (s : string) : list string :=
  if String.eqb s "x" then [] else [s].

Definition sample_vocab (s : string) : option Z :=
  Some (Z.of_nat (String.length s)).

(** ** Statements about the auction *)

(** A change of state made by one turn of the [for key, value] loop:
    the key is granted a text nobody holds, it loses against the holder of
    the text and drops its own head, or it displaces the holder, whose
    head is dropped. *)
Inductive update (key : string) (st : auction_state) : auction_state -> Prop :=
| update_grant text score rest :
    dict_get (answer_id_to_predict_val st) key = Some ((text, score) :: rest) ->
    dict_get (answer_text_dict st) text = None ->
    update key st
      (mkState (answer_id_to_predict_val st)
         (dict_set (answer_text_dict st) text (score, key)))
| update_lose text score rest score0 id0 :
    dict_get (answer_id_to_predict_val st) key = Some ((text, score) :: rest) ->
    dict_get (answer_text_dict st) text = Some (score0, id0) ->
    Qltb score0 score = false ->
    id0 <> key ->
    update key st
      (mkState (dict_set (answer_id_to_predict_val st) key rest)
         (answer_text_dict st))
| update_displace text score rest score0 id0 tmp_value :
    dict_get (answer_id_to_predict_val st) key = Some ((text, score) :: rest) ->
    dict_get (answer_text_dict st) text = Some (score0, id0) ->
    Qltb score0 score = true ->
    dict_get (answer_id_to_predict_val st) id0 = Some tmp_value ->
    update key st
      (mkState (dict_set (answer_id_to_predict_val st) id0
                  (Py.tail1 tmp_value))
         (dict_set (answer_text_dict st) text (score, key))).

(** Every text of [answer_text_dict] is the head of the list of the
    answer id recorded for it, with the recorded score; the answer ids are
    pairwise distinct. *)
Definition auction_inv (st : auction_state) : Prop :=
  NoDup (dict_keys (answer_id_to_predict_val st)) /\
  forall text score id,
    dict_get (answer_text_dict st) text = Some (score, id) ->
    exists rest,
      dict_get (answer_id_to_predict_val st) id = Some ((text, score) :: rest).

(** [key] currently holds the text at the head of its list. *)
Definition holds (atd : list (string * (Q * string))) (key : string)
    (value : cands) : bool :=
  match value with
  | (text, _) :: _ =>
      match dict_get atd text with
      | Some (_, id) => String.eqb id key
      | None => false
      end
  | [] => false
  end.

(** Candidates left to a key, not counting a head it holds. *)
Definition weight (atd : list (string * (Q * string)))
    (kv : string * cands) : nat :=
  (List.length (snd kv) - if holds atd (fst kv) (snd kv) then 1 else 0)%nat.

Definition measure (st : auction_state) : nat :=
  list_sum (map (weight (answer_text_dict st)) (answer_id_to_predict_val st)).

(** No turn of a pass changes anything. *)
Definition stable (st : auction_state) : Prop :=
  forall key, In key (dict_keys (answer_id_to_predict_val st)) ->
              auction_step key st false = (st, false).

(** Every candidate text of every list satisfies [P]. *)
Definition texts_all (P : string -> Prop) (pv : list (string * cands)) : Prop :=
  forall key value text score,
    In (key, value) pv -> In (text, score) value -> P text.

(** The two bounds under examination: a pass that updates shortens some
    list, and the loop runs at most as many passes as there are
    candidates. *)
Definition pass_shrinks (st : auction_state) : Prop :=
  forall st',
    auction_pass st = (st', true) ->
    (total_candidates (answer_id_to_predict_val st')
     < total_candidates (answer_id_to_predict_val st))%nat.

Definition passes_within_total (entries : list doc_entry) : Prop :=
  forall fuel st n,
    auction_loop fuel (initial_state entries) = Some (st, n) ->
    (n <= total_candidates (initial_predict_val entries))%nat.

(** ** Sample documents for running the model *)

(** The scenario of three choices over the blanks 1 to 3. *)
Definition scenario : list doc_entry :=
  [ mkEntry 3 "0" [("[unused1]", 9 # 10); ("[unused2]", 1 # 10)]%Q;
    mkEntry 3 "1" [("[unused1]", 95 # 100); ("[unused3]", 2 # 10)]%Q;
    mkEntry 3 "2" [("[unused2]", 8 # 10); ("[unused1]", 3 # 10)]%Q ]%string.

(** One choice with one candidate. *)
Definition single_choice : list doc_entry :=
  [ mkEntry 1 "0" [("[unused1]", 9 # 10)]%Q ]%string.

(** Two choices for one blank in a document that also contains the
    character "1": positions outside the markers are only pushed down by
    the mask, so the token "1" is a candidate of both choices. *)
Definition digit_document : list doc_entry :=
  [ mkEntry 1 "0" [("[unused1]", 9 # 10); ("1", 1 # 10)]%Q;
    mkEntry 1 "1" [("[unused1]", 8 # 10); ("1", 2 # 10)]%Q ]%string.

(** A document whose choices all have an empty candidate pool; [ids]
    lists [len(example.orig_answer_text)] and the answer id of each. *)
Definition empty_pool_document (final_text_of : PrelimPrediction -> string)
    (exp : Q -> Q) (n_best_size : Z) (ids : list (nat * string))
  : list doc_entry :=
  map (fun '(n, id) =>
         mkEntry n id (prediction_value final_text_of exp n_best_size []))
    ids.

(** A training example whose first character is cleaned away by the
    tokenizer; the gold blank is document token 1. *)
Definition shifted_example : SquadExample :=
  mkExample "q" ["x"; "[unused1]"; "a"; "b"]%string (Some 1).

(** ** Statements about the final assignment *)

Fixpoint all_digits (s : string) : bool :=
  match s with
  | EmptyString => true
  | String c rest => Py.is_digit c && all_digits rest
  end.

(** The reserved marker of blank [n], as [read_squad_examples] writes it. *)
Definition marker (n : nat) : string :=
  ("[unused" ++ Py.str n ++ "]")%string.

(** The list position an index denotes in a list of [n] elements. *)
Definition resolve (n : nat) (i : Z) : option nat :=
  if (0 <=? i) && (i <? Z.of_nat n) then Some (Z.to_nat i)
  else if (i <? 0) && (0 <=? i + Z.of_nat n) then Some (Z.to_nat (i + Z.of_nat n))
  else None.

(** The store [write_back] performs for one key, if any: the slot and the
    choice written into it. *)
Definition write_of (blanks : nat) (key : string) (value_1 : cands)
  : option (nat * Z) :=
  match value_1 with
  | [] => None
  | (best, _) :: _ =>
      match target_slot best, Py.int key with
      | Some slot, Some choice =>
          option_map (fun i => (i, choice)) (resolve blanks slot)
      | _, _ => None
      end
  end.

(** All stores of the final loop, in order. *)
Fixpoint writes (blanks : nat) (pv : list (string * cands)) : list (nat * Z) :=
  match pv with
  | [] => []
  | (key, value_1) :: rest =>
      match write_of blanks key value_1 with
      | Some w => w :: writes blanks rest
      | None => writes blanks rest
      end
  end.

Definition apply_writes (ws : list (nat * Z)) (out : list Z) : list Z :=
  fold_left (fun out '(i, choice) => Py.set_nth out i choice) ws out.

(** Every answer id is the decimal numeral of a choice index and every
    candidate text is the marker of a blank numbered from 1. *)
Definition marker_document (entries : list doc_entry) : Prop :=
  (forall e, In e entries -> exists c, answer_id e = Py.str c) /\
  (forall e t s, In e entries -> In (t, s) (val e) ->
     exists n, (1 <= n)%nat /\ t = marker n).


(** ** ASCII documents *)



(** ** Further statements about the auction *)

(** Every candidate listed in [dropped] names a text that
    [answer_text_dict] records with a score at least as high. *)
Definition outbid (atd : list (string * (Q * string))) (dropped : cands)
  : Prop :=
  forall text score,
    In (text, score) dropped ->
    exists score' id,
      dict_get atd text = Some (score', id) /\ (score <= score')%Q.

(** What the auction keeps true of the lists, relative to the lists it
    started from. *)
Definition shrink_inv (pv0 : list (string * cands)) (st : auction_state)
  : Prop :=
  forall key value,
    dict_get (answer_id_to_predict_val st) key = Some value ->
    exists dropped,
      dict_get pv0 key = Some (dropped ++ value) /\
      outbid (answer_text_dict st) dropped.

(** ** Further statements about the windows *)

(** Each window but the last takes [C] tokens, and the next one starts
    [min(C, doc_stride)] tokens later. *)
Definition evenly_spaced (C doc_stride : Z) (spans : list DocSpan) : Prop :=
  forall i d d',
    nth_error spans i = Some d -> nth_error spans (S i) = Some d' ->
    length d = C /\ start d' = start d + Z.min C doc_stride.

(** ** Further statements about the features *)

(** The number of sub-tokens the first [k] document tokens give. *)
Definition subs_before (tokenize : string -> list string)
    (doc : list string) (k : nat) : nat :=
  List.length (List.concat (map (sub_tokens_of tokenize) (firstn k doc))).
(** * Properties *)

(** ** The window loop *)

Lemma doc_spans_from_more_fuel (L C doc_stride : Z) (f f' : nat) :
  forall a spans,
    doc_spans_from f L C doc_stride a = Some spans ->
    (f <= f')%nat ->
    doc_spans_from f' L C doc_stride a = Some spans.
Proof.
  revert f'. induction f as [|f IH]; intros f' a spans H Hle.
  - discriminate.
  - destruct f' as [|f']; [lia|].
    simpl in *.
    destruct (a <? L); [|exact H].
    destruct (a + (if L - a >? C then C else L - a) =? L); [exact H|].
    destruct (doc_spans_from f L C doc_stride
                (a + Z.min (if L - a >? C then C else L - a) doc_stride))
      as [r|] eqn:E; [|discriminate].
    rewrite (IH f' _ r E); [exact H | lia].
Qed.

(** From any offset inside the document the loop returns windows that
    start there, take [min(C, L - start)] tokens each, leave no index of
    [a .. L-1] out, stay inside the document and end flush with it. *)
Lemma doc_spans_from_ok (L C doc_stride : Z) :
  1 <= doc_stride -> doc_stride < C ->
  forall fuel a,
    0 <= a < L -> (Z.to_nat (L - a) <= fuel)%nat ->
    exists spans,
      doc_spans_from fuel L C doc_stride a = Some spans /\
      (forall d, In d spans -> length d = Z.min C (L - start d)) /\
      (forall p, a <= p <= L - 1 -> exists d, In d spans /\ in_span p d) /\
      (forall d p, In d spans -> in_span p d -> a <= p <= L - 1) /\
      span_end (last spans (mkDocSpan 0 0)) = L - 1.
Proof.
  intros HS HC. induction fuel as [|fuel IH]; intros a Ha Hfuel.
  - lia.
  - simpl. destruct (Z.ltb_spec a L) as [_|]; [|lia].
    set (len0 := if L - a >? C then C else L - a).
    assert (Hlen : len0 = Z.min C (L - a)).
    { unfold len0. destruct (Z.gtb_spec (L - a) C); lia. }
    destruct (Z.eqb_spec (a + len0) L) as [Heq|Hne].
    + exists [mkDocSpan a len0]. split; [reflexivity|].
      split; [|split; [|split]].
      * intros d [<-|[]]. simpl. exact Hlen.
      * intros p Hp. exists (mkDocSpan a len0). split; [left; reflexivity|].
        unfold in_span, span_end; simpl. lia.
      * intros d p [<-|[]] Hp. unfold in_span, span_end in Hp; simpl in Hp. lia.
      * unfold span_end; simpl. lia.
    + assert (Hlong : len0 = C) by lia.
      assert (Hstep : Z.min len0 doc_stride = doc_stride) by lia.
      rewrite Hstep.
      destruct (IH (a + doc_stride)) as (spans & Hrun & Hl & Hc & Hin & Hlast);
        [lia | lia |].
      rewrite Hrun. simpl.
      exists (mkDocSpan a len0 :: spans). split; [reflexivity|].
      split; [|split; [|split]].
      * intros d [<-|Hd]; [simpl; exact Hlen | apply Hl, Hd].
      * intros p Hp. destruct (Z_lt_ge_dec p (a + doc_stride)) as [Hlt|Hge].
        -- exists (mkDocSpan a len0). split; [left; reflexivity|].
           unfold in_span, span_end; simpl. lia.
        -- destruct (Hc p) as (d & Hd & Hpd); [lia|].
           exists d. split; [right; exact Hd | exact Hpd].
      * intros d p [<-|Hd] Hp.
        -- unfold in_span, span_end in Hp; simpl in Hp. lia.
        -- pose proof (Hin d p Hd Hp). lia.
      * destruct spans as [|d0 rest].
        -- destruct (Hc (L - 1)) as (d & [] & _). lia.
        -- exact Hlast.
Qed.

(** With a zero stride and a document longer than the window the loop
    appends the same window for ever. *)
Lemma doc_spans_zero_stride_diverges (fuel : nat) :
  doc_spans_from fuel 2 1 0 0 = None.
Proof.
  induction fuel as [|fuel IH]; [reflexivity|].
  simpl. exact (f_equal (option_map (cons (mkDocSpan 0 1))) IH).
Qed.

(** C5, as stated: for [S < C <= L] alone the windows need not exist.
    At [L = 2], [C = 1], [S = 0] the window loop never leaves. *)
Lemma C5_counterexample : (0 < 1 /\ 1 <= 2) /\ ~ windows_ok 2 1 0.
Proof.
  split; [lia|].
  intros (fuel & spans & Hrun & _).
  unfold doc_spans in Hrun.
  rewrite doc_spans_zero_stride_diverges in Hrun. discriminate.
Qed.

(** C5, amended: for a stride of at least one, [1 <= S < C <= L], the
    window loop returns, each window takes [min(C, L - start)] tokens from
    its start offset, the windows cover every index of [0 .. L-1] and no
    other, and the last window ends at [L-1]. *)
Theorem C5_window_coverage (L C doc_stride : Z) :
  1 <= doc_stride -> doc_stride < C -> C <= L ->
  windows_ok L C doc_stride.
Proof.
  intros HS HC HL.
  destruct (doc_spans_from_ok L C doc_stride HS HC (Z.to_nat L) 0)
    as (spans & Hrun & Hlen & Hcov & Hin & Hlast); [lia | lia |].
  exists (Z.to_nat L), spans.
  split; [exact Hrun|]. split; [exact Hlen|]. split; [|exact Hlast].
  split.
  - intros p Hp. apply Hcov. lia.
  - intros d p Hd Hp. exact (Hin d p Hd Hp).
Qed.

Lemma C5_window_coverage_witness : windows_ok 10 4 2.
Proof.
  apply (C5_window_coverage 10 4 2); lia.
Defined.

(** ** Max-context ownership *)

Lemma Qltb_true (x y : Q) : Qltb x y = true -> (x < y)%Q.
Proof.
  unfold Qltb. destruct (x ?= y)%Q eqn:E; try discriminate.
  intros _. apply Qlt_alt. exact E.
Qed.

Lemma Qltb_false (x y : Q) : Qltb x y = false -> (y <= x)%Q.
Proof.
  unfold Qltb. destruct (x ?= y)%Q eqn:E; intros H; try discriminate;
    apply Qnot_lt_le; intros Hlt; apply (proj1 (Qlt_alt x y)) in Hlt;
    congruence.
Qed.

Lemma Qltb_irrefl (x y : Q) : (x == y)%Q -> Qltb y x = false.
Proof.
  intros E. destruct (Qltb y x) eqn:H; [|reflexivity].
  apply Qltb_true in H. rewrite E in H. exfalso. exact (Qlt_irrefl _ H).
Qed.

(** *** Rounding to binary64 *)

Section Rounding.

Local Open Scope Q_scope.











End Rounding.

(** On a grid of contexts and window lengths the score is the number the
    IEEE 754 operations of the standard library's [SpecFloat] compute. *)
Lemma span_score_binary64 :
  forallb (fun m => forallb (fun l =>
     match B64_value (B64_score m l) with
     | Some q => Qeq_bool q (span_score (mkDocSpan 0 l) m)
     | None => false
     end) (map (fun k => 2 * m + 1 + Z.of_nat k) (seq 0 48)))
    (map Z.of_nat (seq 0 24)) = true.
Proof. vm_compute. reflexivity. Qed.

(** The windows [(0, 118)] and [(101, 18)] at position 115: the exact
    sums tie at 3.18, the rounded ones do not, and the second window
    is the owner. *)
Lemma max_context_rounding_example :
  _check_is_max_context [mkDocSpan 0 118; mkDocSpan 101 18] 1 115 = true /\
  _check_is_max_context [mkDocSpan 0 118; mkDocSpan 101 18] 0 115 = false.
Proof. split; vm_compute; reflexivity. Qed.


Lemma nth_error_snoc {A} (l : list A) (x : A) (j : nat) (y : A) :
  nth_error (l ++ [x]) j = Some y ->
  ((j < List.length l)%nat /\ nth_error l j = Some y) \/
  (j = List.length l /\ y = x).
Proof.
  intros H. destruct (Nat.lt_ge_cases j (List.length l)) as [Hlt|Hge].
  - left. split; [exact Hlt|]. rewrite nth_error_app1 in H by exact Hlt. exact H.
  - right. rewrite nth_error_app2 in H by exact Hge.
    destruct (j - List.length l)%nat as [|n] eqn:E.
    + simpl in H. inversion H. split; [lia | reflexivity].
    + simpl in H. destruct n; discriminate.
Qed.

Lemma in_span_tests (p : Z) (d : DocSpan) :
  (if p <? start d then false else if p >? span_end d then false else true)
  = true <-> in_span p d.
Proof.
  unfold in_span.
  destruct (Z.ltb_spec p (start d)).
  - split; [discriminate | lia].
  - destruct (Z.gtb_spec p (span_end d)).
    + split; [discriminate | lia].
    + split; [intros _; lia | reflexivity].
Qed.

Lemma best_inv_step (p : Z) (seen : list DocSpan) (d : DocSpan)
    (best : option (Q * nat)) :
  best_inv p seen best ->
  best_inv p (seen ++ [d])
    (if p <? start d then best
     else if p >? span_end d then best
     else match best with
          | None => Some (span_score d p, List.length seen)
          | Some (best_score, _) =>
              if Qltb best_score (span_score d p)
              then Some (span_score d p, List.length seen) else best
          end).
Proof.
  intros Hinv.
  pose proof (in_span_tests p d) as Htest.
  destruct (p <? start d) eqn:E1; [|destruct (p >? span_end d) eqn:E2].
  1,2: assert (Hout : ~ in_span p d)
         by (intros Hin; apply Htest in Hin; discriminate).
  1,2: destruct best as [[s i]|]; simpl in *.
  1,3: destruct Hinv as (d0 & Hn & Hin & Hs & Hmax);
       exists d0; split; [rewrite nth_error_app1;
                          [exact Hn | apply nth_error_Some; congruence]|];
       split; [exact Hin|]; split; [exact Hs|];
       intros j dj Hj Hpj; apply nth_error_snoc in Hj;
       destruct Hj as [[_ Hj]|[_ ->]]; [exact (Hmax j dj Hj Hpj) | contradiction].
  1,2: intros j dj Hj Hpj; apply nth_error_snoc in Hj;
       destruct Hj as [[_ Hj]|[_ ->]]; [exact (Hinv j dj Hj Hpj) | contradiction].
  assert (Hd : in_span p d) by (apply Htest; reflexivity).
  assert (Hlast : nth_error (seen ++ [d]) (List.length seen) = Some d).
  { rewrite nth_error_app2 by lia. rewrite Nat.sub_diag. reflexivity. }
  destruct best as [[s i]|]; simpl in *.
  - destruct Hinv as (d0 & Hn & Hin & Hs & Hmax).
    destruct (Qltb s (span_score d p)) eqn:Hcmp; simpl.
    + apply Qltb_true in Hcmp.
      exists d. split; [exact Hlast|]. split; [exact Hd|]. split; [reflexivity|].
      intros j dj Hj Hpj. apply nth_error_snoc in Hj.
      destruct Hj as [[Hlt Hj]|[-> ->]].
      * destruct (Hmax j dj Hj Hpj) as [Hle _]. split.
        -- apply Qlt_le_weak. eapply Qle_lt_trans; eassumption.
        -- intros Heq. rewrite Heq in Hle. exfalso.
           exact (Qlt_irrefl _ (Qle_lt_trans _ _ _ Hle Hcmp)).
      * split; [apply Qle_refl | intros _; lia].
    + apply Qltb_false in Hcmp.
      exists d0. split.
      { rewrite nth_error_app1; [exact Hn | apply nth_error_Some; congruence]. }
      split; [exact Hin|]. split; [exact Hs|].
      intros j dj Hj Hpj. apply nth_error_snoc in Hj.
      destruct Hj as [[_ Hj]|[-> ->]]; [exact (Hmax j dj Hj Hpj)|].
      split; [exact Hcmp|]. intros _.
      apply Nat.lt_le_incl, nth_error_Some. congruence.
  - exists d. split; [exact Hlast|]. split; [exact Hd|]. split; [reflexivity|].
    intros j dj Hj Hpj. apply nth_error_snoc in Hj.
    destruct Hj as [[_ Hj]|[-> ->]].
    + exfalso. exact (Hinv j dj Hj Hpj).
    + split; [apply Qle_refl | intros _; lia].
Qed.

Lemma best_span_loop_inv (p : Z) (rest : list DocSpan) :
  forall seen best,
    best_inv p seen best ->
    best_inv p (seen ++ rest)
      (best_span_loop rest (List.length seen) p best).
Proof.
  induction rest as [|d rest IH]; intros seen best Hinv.
  - rewrite app_nil_r. exact Hinv.
  - simpl.
    replace (seen ++ d :: rest) with ((seen ++ [d]) ++ rest)
      by (rewrite <- app_assoc; reflexivity).
    replace (S (List.length seen)) with (List.length (seen ++ [d]))
      by (rewrite length_app; simpl; lia).
    apply IH. apply best_inv_step. exact Hinv.
Qed.



(** ** [get_final_text] *)

Lemma prefixb_spec (p s : unicode) :
  Text.prefixb p s = true <-> exists r, s = p ++ r.
Proof.
  revert s. induction p as [|a p IH]; intros s; simpl.
  - split; [intros _; exists s; reflexivity | reflexivity].
  - destruct s as [|b s].
    + split; [discriminate | intros [r H]; discriminate].
    + rewrite andb_true_iff, N.eqb_eq, IH. split.
      * intros [-> [r ->]]. exists r. reflexivity.
      * intros [r H]. inversion H. split; [reflexivity | exists r; reflexivity].
Qed.

Lemma find_unfold (p s : unicode) :
  Text.find p s =
  if Text.prefixb p s then Some O
  else match s with
       | [] => None
       | _ :: s' => option_map S (Text.find p s')
       end.
Proof. destruct s; reflexivity. Qed.

Lemma find_Some (p s : unicode) (n : nat) :
  Text.find p s = Some n ->
  exists l r, s = l ++ p ++ r /\ List.length l = n.
Proof.
  revert n. induction s as [|c s IH]; intros n; rewrite find_unfold.
  - destruct (Text.prefixb p []) eqn:E; [|discriminate].
    intros H. inversion H. apply prefixb_spec in E. destruct E as [r E].
    exists [], r. split; [exact E | reflexivity].
  - destruct (Text.prefixb p (c :: s)) eqn:E.
    + intros H. inversion H. apply prefixb_spec in E. destruct E as [r E].
      exists [], r. split; [exact E | reflexivity].
    + destruct (Text.find p s) as [m|]; [|discriminate].
      simpl. intros H. inversion H.
      destruct (IH m eq_refl) as (l & r & -> & Hl).
      exists (c :: l), r. split; [reflexivity | simpl; congruence].
Qed.

(** [find] answers [None] exactly when the pattern does not occur. *)
Lemma find_None (p s : unicode) :
  Text.find p s = None <-> ~ substring_of p s.
Proof.
  split.
  - induction s as [|c s IH]; rewrite find_unfold.
    + destruct (Text.prefixb p []) eqn:E; [discriminate|].
      intros _ (l & r & H).
      destruct l; [|discriminate]. simpl in H.
      assert (Text.prefixb p [] = true)
        by (apply prefixb_spec; exists r; exact H).
      congruence.
    + destruct (Text.prefixb p (c :: s)) eqn:E; [discriminate|].
      destruct (Text.find p s) as [m|]; [discriminate|].
      intros _ (l & r & H).
      destruct l as [|c' l]; simpl in H.
      * assert (Text.prefixb p (c :: s) = true)
          by (apply prefixb_spec; exists r; exact H).
        congruence.
      * inversion H; subst. apply IH; [reflexivity|].
        exists l, r. reflexivity.
  - intros H. destruct (Text.find p s) as [n|] eqn:F; [|reflexivity].
    exfalso. apply H. destruct (find_Some p s n F) as (l & r & E & _).
    exists l, r. exact E.
Qed.

Lemma strip_spaces_text (text : unicode) (i n : Z) :
  fst (_strip_spaces_from text i n) = without_spaces text.
Proof.
  revert i n. induction text as [|c rest IH]; intros i n; simpl.
  - reflexivity.
  - destruct (N.eqb c Text.space); [apply IH|].
    specialize (IH (i + 1) (n + 1)).
    destruct (_strip_spaces_from rest (i + 1) (n + 1)) as [ns m].
    simpl in *. congruence.
Qed.

(** C9: [get_final_text] returns [orig_text] itself whenever [pred_text]
    does not occur in the space-joined re-tokenization of [orig_text],
    whenever the two texts differ in length (in characters) once all
    spaces are removed, and in the remaining failure cases (an end of the
    prediction that cannot be mapped back). *)
Theorem C9_get_final_text_fallback
    (basic_tokenize : bool -> unicode -> list unicode)
    (pred_text orig_text : unicode) (do_lower_case : bool) :
  alignment_fails basic_tokenize pred_text orig_text do_lower_case ->
  get_final_text basic_tokenize pred_text orig_text do_lower_case = orig_text.
Proof.
  unfold alignment_fails, get_final_text, _strip_spaces.
  set (tok_text := tok_text_of basic_tokenize do_lower_case orig_text).
  pose proof (strip_spaces_text orig_text 0 0) as Ho.
  pose proof (strip_spaces_text tok_text 0 0) as Ht.
  destruct (_strip_spaces_from orig_text 0 0) as [orig_ns orig_map].
  destruct (_strip_spaces_from tok_text 0 0) as [tok_ns tok_map].
  simpl in *. subst orig_ns tok_ns.
  intros [Hsub | [Hlen | (sp & Hfind & Hmap)]].
  - apply find_None in Hsub. rewrite Hsub. reflexivity.
  - destruct (Text.find pred_text tok_text); [|reflexivity].
    unfold len. destruct (Z.eqb_spec
      (Z.of_nat (List.length (without_spaces orig_text)))
      (Z.of_nat (List.length (without_spaces tok_text)))) as [E|_].
    + exfalso. apply Hlen. lia.
    + reflexivity.
  - rewrite Hfind.
    destruct (negb _); [reflexivity|].
    destruct Hmap as [-> | Hend]; [reflexivity|].
    destruct (map_position _ _ (Z.of_nat sp)); [|reflexivity].
    rewrite Hend. reflexivity.
Qed.

Lemma C9_get_final_text_fallback_witness :
  get_final_text space_tokenize (Text.of_string "cat")
    (Text.of_string "a dog") false
  = Text.of_string "a dog".
Proof.
  apply (C9_get_final_text_fallback space_tokenize
           (Text.of_string "cat") (Text.of_string "a dog") false).
  left. apply find_None. reflexivity.
Defined.

(** Lengths are counted in characters: for the prediction "cafe" and the
    original text "caf", e with acute (one code point, two bytes of
    UTF-8), "!", the stripped texts have five characters each, the
    alignment succeeds, and the result is the accented word without the
    exclamation mark. *)
Lemma get_final_text_accent_example :
  get_final_text accent_tokenize [99; 97; 102; 101]%N
    [99; 97; 102; 233; 33]%N false
  = [99; 97; 102; 233]%N.
Proof. vm_compute. reflexivity. Qed.

(** ** The answer-position mask *)

Lemma set_nth_length {A} (xs : list A) (n : nat) (v : A) :
  List.length (Py.set_nth xs n v) = List.length xs.
Proof.
  revert n. induction xs as [|h t IH]; intros [|n]; simpl; auto.
Qed.

Lemma nth_error_set_nth {A} (xs : list A) (n i : nat) (v : A) :
  (n < List.length xs)%nat ->
  nth_error (Py.set_nth xs n v) i =
  if Nat.eqb i n then Some v else nth_error xs i.
Proof.
  revert n i. induction xs as [|h t IH]; intros n i Hn; simpl in Hn; [lia|].
  destruct n as [|n], i as [|i]; simpl; try reflexivity.
  apply IH. lia.
Qed.

Lemma store_nat {A} (xs xs' : list A) (k : nat) (v : A) :
  Py.store xs (Z.of_nat k) v = Some xs' ->
  (k < List.length xs)%nat /\ xs' = Py.set_nth xs k v.
Proof.
  unfold Py.store.
  destruct (Z.leb_spec 0 (Z.of_nat k)) as [_|Hneg]; [|lia].
  destruct (Z.ltb_spec (Z.of_nat k) (Z.of_nat (List.length xs)))
    as [Hlt|Hge]; simpl.
  - rewrite Nat2Z.id. intros E. inversion E. split; [lia | reflexivity].
  - destruct (Z.ltb_spec (Z.of_nat k) 0) as [Hneg|_]; [lia|]. discriminate.
Qed.

(** The mask loop keeps the length of the mask and sets to 1 exactly the
    positions of the tokens that carry "unused". *)
Lemma mask_loop_spec (toks : list string) :
  forall k mask mask',
    mask_loop toks (Z.of_nat k) mask = Some mask' ->
    List.length mask' = List.length mask /\
    forall i,
      nth_error mask' i =
      match nth_error toks (i - k) with
      | Some w =>
          if (k <=? i)%nat && has_unused w then Some 1 else nth_error mask i
      | None => nth_error mask i
      end.
Proof.
  induction toks as [|word rest IH]; intros k mask mask' H; simpl in H.
  - inversion H. split; [reflexivity|]. intros i.
    destruct (i - k)%nat; reflexivity.
  - replace (Z.of_nat k + 1) with (Z.of_nat (S k)) in H by lia.
    assert (Hshift : forall i, (k < i)%nat ->
              nth_error (word :: rest) (i - k) = nth_error rest (i - S k)).
    { intros i Hi. replace (i - k)%nat with (S (i - S k)) by lia. reflexivity. }
    destruct (has_unused word) eqn:Hw.
    + destruct (Py.store mask (Z.of_nat k) 1) as [m1|] eqn:Hst; [|discriminate].
      apply store_nat in Hst. destruct Hst as [Hk ->].
      destruct (IH (S k) _ _ H) as [Hlen Hnth].
      rewrite set_nth_length in Hlen. split; [exact Hlen|].
      intros i. rewrite Hnth. rewrite nth_error_set_nth by exact Hk.
      destruct (Nat.lt_trichotomy i k) as [Hlt|[->|Hgt]].
      * assert (E1 : (S k <=? i)%nat = false) by (apply Nat.leb_gt; lia).
        assert (E2 : (k <=? i)%nat = false) by (apply Nat.leb_gt; lia).
        assert (E3 : (i =? k)%nat = false) by (apply Nat.eqb_neq; lia).
        rewrite E1, E2, E3. simpl.
        destruct (nth_error rest (i - S k));
          destruct (nth_error (word :: rest) (i - k)); reflexivity.
      * assert (E1 : (S k <=? k)%nat = false) by (apply Nat.leb_gt; lia).
        rewrite E1, Nat.leb_refl, Nat.eqb_refl, Nat.sub_diag. simpl.
        rewrite Hw. destruct (nth_error rest (k - S k)); reflexivity.
      * rewrite (Hshift i Hgt).
        assert (E1 : (S k <=? i)%nat = true) by (apply Nat.leb_le; lia).
        assert (E2 : (k <=? i)%nat = true) by (apply Nat.leb_le; lia).
        assert (E3 : (i =? k)%nat = false) by (apply Nat.eqb_neq; lia).
        rewrite E1, E2, E3. reflexivity.
    + destruct (IH (S k) _ _ H) as [Hlen Hnth].
      split; [exact Hlen|].
      intros i. rewrite Hnth.
      destruct (Nat.lt_trichotomy i k) as [Hlt|[->|Hgt]].
      * assert (E1 : (S k <=? i)%nat = false) by (apply Nat.leb_gt; lia).
        assert (E2 : (k <=? i)%nat = false) by (apply Nat.leb_gt; lia).
        rewrite E1, E2. simpl.
        destruct (nth_error rest (i - S k));
          destruct (nth_error (word :: rest) (i - k)); reflexivity.
      * assert (E1 : (S k <=? k)%nat = false) by (apply Nat.leb_gt; lia).
        rewrite E1, Nat.sub_diag. simpl.
        rewrite Hw, andb_false_r.
        destruct (nth_error rest (k - S k)); reflexivity.
      * rewrite (Hshift i Hgt).
        assert (E1 : (S k <=? i)%nat = true) by (apply Nat.leb_le; lia).
        assert (E2 : (k <=? i)%nat = true) by (apply Nat.leb_le; lia).
        rewrite E1, E2. reflexivity.
Qed.

(** What a kept feature was built from. *)
Lemma span_feature_Kept vocab is_training max_seq_length ex
    query_tokens tok_to_orig_index all_doc_tokens tok_position spans
    uid ex_index span_index doc_span f :
  span_feature vocab is_training max_seq_length ex query_tokens
    tok_to_orig_index all_doc_tokens tok_position spans uid ex_index
    span_index doc_span = Kept f ->
  exists window,
    tokens f = "[CLS]"%string :: query_tokens ++ ["[SEP]"%string]
               ++ window ++ ["[SEP]"%string] /\
    mask_loop (tokens f) 0 (repeat 0 (Z.to_nat max_seq_length))
      = Some (answer_position_mask f) /\
    len (answer_position_mask f) = max_seq_length.
Proof.
  unfold span_feature.
  destruct (sequence (map (Py.index tok_to_orig_index) _)) as [origs|];
    [|discriminate].
  destruct (sequence (map (Py.index all_doc_tokens) _)) as [window|];
    [|discriminate].
  destruct (mask_loop _ 0 _) as [mask|] eqn:Hmask; [|discriminate].
  destruct (sequence (map vocab _)) as [ids|]; [|discriminate].
  destruct (len (pad ids max_seq_length) =? max_seq_length); [|discriminate].
  destruct (Z.eqb_spec (len mask) max_seq_length) as [Hlen|]; [|discriminate].
  simpl.
  intros H. exists window.
  assert (Hf : exists pos,
    f = mkFeatures uid ex_index span_index
          (("[CLS]"%string :: query_tokens ++ ["[SEP]"%string])
           ++ window ++ ["[SEP]"%string])
          (combine (map (fun i => len ("[CLS]"%string :: query_tokens
                                       ++ ["[SEP]"%string]) + i)
                      (range (length doc_span))) origs)
          (combine (map (fun i => len ("[CLS]"%string :: query_tokens
                                       ++ ["[SEP]"%string]) + i)
                      (range (length doc_span)))
             (map (_check_is_max_context spans span_index)
                (map (fun i => start doc_span + i)
                   (range (length doc_span)))))
          (pad ids max_seq_length)
          (pad (map (fun _ => 1) ids) max_seq_length)
          (pad (map (fun _ => 0) ("[CLS]"%string :: query_tokens
                                  ++ ["[SEP]"%string])
                ++ map (fun _ => 1) window ++ [1]) max_seq_length)
          mask pos).
  { destruct is_training.
    - destruct (position ex) as [ex_pos|]; [|discriminate].
      destruct tok_position as [tok_pos|]; [|discriminate].
      destruct ((ex_pos <? start doc_span)
                || (ex_pos >? start doc_span + length doc_span - 1));
        [discriminate|].
      inversion H. eexists. reflexivity.
    - inversion H. eexists. reflexivity. }
  destruct Hf as [pos ->]. simpl.
  split; [|split].
  - rewrite <- app_assoc. reflexivity.
  - exact Hmask.
  - exact Hlen.
Qed.

Lemma nth_error_repeat_zero (n i : nat) (v : Z) :
  nth_error (repeat 0 n) i = Some v -> v = 0.
Proof.
  intros H. apply nth_error_In in H. apply repeat_spec in H. exact H.
Qed.

(** The mask of a kept feature, position by position. *)
Lemma span_feature_mask vocab is_training max_seq_length ex
    query_tokens tok_to_orig_index all_doc_tokens tok_position spans
    uid ex_index span_index doc_span f :
  span_feature vocab is_training max_seq_length ex query_tokens
    tok_to_orig_index all_doc_tokens tok_position spans uid ex_index
    span_index doc_span = Kept f ->
  len (answer_position_mask f) = max_seq_length /\
  (forall i, nth_error (answer_position_mask f) i = Some 1 <->
             exists w, nth_error (tokens f) i = Some w /\ has_unused w = true) /\
  (forall i v, nth_error (answer_position_mask f) i = Some v ->
               v = 0 \/ v = 1) /\
  ((forall q, In q query_tokens -> has_unused q = false) ->
   mask_marks_markers query_tokens f).
Proof.
  intros H. apply span_feature_Kept in H.
  destruct H as (window & Htok & Hmask & Hlen).
  apply (mask_loop_spec (tokens f) 0) in Hmask.
  destruct Hmask as [_ Hnth].
  assert (Hiff : forall i, nth_error (answer_position_mask f) i = Some 1 <->
             exists w, nth_error (tokens f) i = Some w /\ has_unused w = true).
  { intros i. rewrite Hnth, Nat.sub_0_r. simpl.
    destruct (nth_error (tokens f) i) as [w|].
    - destruct (has_unused w) eqn:Hw.
      + split; [intros _; exists w; auto | reflexivity].
      + split.
        * intros E. apply nth_error_repeat_zero in E. discriminate.
        * intros (w' & E & Hw'). inversion E; subst. congruence.
    - split.
      + intros E. apply nth_error_repeat_zero in E. discriminate.
      + intros (w' & E & _). discriminate. }
  split; [exact Hlen|]. split; [exact Hiff|]. split.
  - intros i v. rewrite Hnth, Nat.sub_0_r. simpl.
    destruct (nth_error (tokens f) i) as [w|].
    + destruct (has_unused w).
      * intros E. inversion E. right. reflexivity.
      * intros E. left. exact (nth_error_repeat_zero _ _ _ E).
    + intros E. left. exact (nth_error_repeat_zero _ _ _ E).
  - intros Hq i. rewrite Hiff. unfold marker_position. split.
    + intros (w & Hw & Hu). split; [|exists w; auto].
      rewrite Htok in *. clear Htok Hiff Hnth.
      destruct i as [|i]; [simpl in Hw; inversion Hw; subst; discriminate|].
      simpl in Hw.
      destruct (Nat.lt_ge_cases i (List.length query_tokens)) as [Hlt|Hge].
      { rewrite nth_error_app1 in Hw by exact Hlt.
        apply nth_error_In in Hw. rewrite (Hq w Hw) in Hu. discriminate. }
      rewrite nth_error_app2 in Hw by exact Hge.
      destruct (i - List.length query_tokens)%nat as [|m] eqn:Em.
      { simpl in Hw. inversion Hw; subst; discriminate. }
      simpl in Hw.
      destruct (Nat.lt_ge_cases m (List.length window)) as [Hlt|Hge2].
      { simpl. repeat (rewrite length_app; simpl). lia. }
      rewrite nth_error_app2 in Hw by exact Hge2.
      destruct (m - List.length window)%nat as [|m'].
      { simpl in Hw. inversion Hw; subst; discriminate. }
      simpl in Hw. destruct m'; discriminate.
    + intros [_ Hw]. exact Hw.
Qed.

Lemma span_loop_In vocab is_training max_seq_length ex query_tokens
    tok_to_orig_index all_doc_tokens tok_position spans ex_index f :
  forall todo uid span_index fs u,
    span_loop vocab is_training max_seq_length ex query_tokens
      tok_to_orig_index all_doc_tokens tok_position spans uid ex_index
      span_index todo = Some (fs, u) ->
    In f fs ->
    exists uid' span_index' doc_span,
      In doc_span todo /\
      span_feature vocab is_training max_seq_length ex query_tokens
        tok_to_orig_index all_doc_tokens tok_position spans uid' ex_index
        span_index' doc_span = Kept f.
Proof.
  induction todo as [|d rest IH]; intros uid si fs u H Hin; simpl in H.
  - inversion H; subst. destruct Hin.
  - destruct (span_feature _ _ _ _ _ _ _ _ _ uid ex_index si d) as [| |g] eqn:E.
    + discriminate.
    + destruct (IH _ _ _ _ H Hin) as (uid' & si' & d' & Hd & Hk).
      exists uid', si', d'. split; [right; exact Hd | exact Hk].
    + destruct (span_loop _ _ _ _ _ _ _ _ _ (uid + 1) ex_index (S si) rest)
        as [[fs' u']|] eqn:Hrest; [|discriminate].
      simpl in H. inversion H; subst.
      destruct Hin as [<-|Hin].
      * exists uid, si, d. split; [left; reflexivity | exact E].
      * destruct (IH _ _ _ _ Hrest Hin) as (uid' & si' & d' & Hd & Hk).
        exists uid', si', d'. split; [right; exact Hd | exact Hk].
Qed.

(** Every feature of the result was built by one turn of the doc-span loop
    of one of the examples, with that example's query tokens. *)
Lemma examples_loop_In tokenize vocab fuel is_training max_seq_length
    doc_stride max_query_length f :
  forall examples uid ex_index fs,
    examples_loop tokenize vocab fuel is_training max_seq_length doc_stride
      max_query_length uid ex_index examples = Some fs ->
    In f fs ->
    exists ex t2o all tp spans uid' ex_index' span_index doc_span,
      In ex examples /\
      span_feature vocab is_training max_seq_length ex
        (query_tokens_of tokenize (question_text ex) max_query_length)
        t2o all tp spans uid' ex_index' span_index doc_span = Kept f.
Proof.
  induction examples as [|ex rest IH]; intros uid ei fs H Hin; simpl in H.
  - inversion H; subst. destruct Hin.
  - destruct (example_features _ _ _ _ _ _ _ uid ei ex) as [[fs1 uid1]|] eqn:E;
      [|discriminate].
    destruct (examples_loop _ _ _ _ _ _ _ uid1 (S ei) rest) as [fs2|] eqn:E2;
      [|discriminate].
    simpl in H. inversion H; subst. apply in_app_or in Hin.
    destruct Hin as [Hin|Hin].
    + unfold example_features in E.
      destruct (split_doc tokenize (doc_tokens ex) 0 0) as [[o2t t2o] all].
      destruct (_ && _); [discriminate|].
      destruct (doc_spans _ _ _ _) as [spans|]; [|discriminate].
      destruct (span_loop_In _ _ _ _ _ _ _ _ _ _ _ _ _ _ _ _ E Hin)
        as (uid' & si' & d' & _ & Hk).
      exists ex. do 8 eexists. split; [left; reflexivity | exact Hk].
    + destruct (IH _ _ _ E2 Hin)
        as (ex' & t2o & all & tp & spans & uid' & ei' & si' & d' & Hex & Hk).
      exists ex', t2o, all, tp, spans, uid', ei', si', d'.
      split; [right; exact Hex | exact Hk].
Qed.

(** C8, as stated: a query sub-token that carries "unused" is flagged
    too, although it is no blank marker of the window. *)
Lemma C8_counterexample :
  exists f,
    convert_examples_to_features sample_tokenize sample_vocab 10
      [mkExample "unused" ["a"%string] None] 10 2 5 false = Some [f] /\
    query_tokens_of sample_tokenize "unused" 5 = ["unused"%string] /\
    ~ mask_marks_markers ["unused"%string] f.
Proof.
  eexists. split; [vm_compute; reflexivity|]. split; [reflexivity|].
  intros H. destruct (proj1 (H 1%nat) eq_refl) as [[Hge _] _].
  simpl in Hge. lia.
Qed.

(** C8, amended: in every feature built by [convert_examples_to_features]
    the mask has [max_seq_length] entries, each 0 or 1, and is 1 exactly
    at the encoded positions whose token carries "unused"; when no query
    sub-token carries it, these are exactly the blank-marker positions of
    the window, so that [CLS], query positions, separators, other window
    tokens and padding are 0. *)
Theorem C8_answer_position_mask tokenize vocab fuel examples max_seq_length
    doc_stride max_query_length is_training fs f :
  convert_examples_to_features tokenize vocab fuel examples max_seq_length
    doc_stride max_query_length is_training = Some fs ->
  In f fs ->
  exists ex,
    In ex examples /\
    let query_tokens :=
      query_tokens_of tokenize (question_text ex) max_query_length in
    len (answer_position_mask f) = max_seq_length /\
    (forall i, nth_error (answer_position_mask f) i = Some 1 <->
               exists w, nth_error (tokens f) i = Some w /\
                         has_unused w = true) /\
    (forall i v, nth_error (answer_position_mask f) i = Some v ->
                 v = 0 \/ v = 1) /\
    ((forall q, In q query_tokens -> has_unused q = false) ->
     mask_marks_markers query_tokens f).
Proof.
  intros H Hin. unfold convert_examples_to_features in H.
  destruct (examples_loop_In _ _ _ _ _ _ _ _ _ _ _ _ H Hin)
    as (ex & t2o & all & tp & spans & uid' & ei' & si' & d' & Hex & Hk).
  exists ex. split; [exact Hex|].
  exact (span_feature_mask _ _ _ _ _ _ _ _ _ _ _ _ _ _ Hk).
Qed.

Lemma C8_answer_position_mask_witness :
  exists f,
    convert_examples_to_features sample_tokenize sample_vocab 10
      [mkExample "q" ["a"; "[unused1]"; "b"]%string None] 10 2 5 false
      = Some [f] /\
    exists ex,
      In ex [mkExample "q" ["a"; "[unused1]"; "b"]%string None] /\
      let query_tokens :=
        query_tokens_of sample_tokenize (question_text ex) 5 in
      len (answer_position_mask f) = 10 /\
      (forall i, nth_error (answer_position_mask f) i = Some 1 <->
                 exists w, nth_error (tokens f) i = Some w /\
                           has_unused w = true) /\
      (forall i v, nth_error (answer_position_mask f) i = Some v ->
                   v = 0 \/ v = 1) /\
      ((forall q, In q query_tokens -> has_unused q = false) ->
       mask_marks_markers query_tokens f).
Proof.
  eexists. split; [vm_compute; reflexivity|].
  eapply (C8_answer_position_mask sample_tokenize sample_vocab 10
            [mkExample "q" ["a"; "[unused1]"; "b"]%string None] 10 2 5 false).
  - vm_compute. reflexivity.
  - left. reflexivity.
Defined.

(** ** Dictionaries *)

Section DictFacts.

Context {V : Type}.
Implicit Types (d : list (string * V)) (k : string) (v : V).

Lemma dict_get_set_eq d k v : dict_get (dict_set d k v) k = Some v.
Proof.
  induction d as [|[k' v'] d IH]; simpl.
  - rewrite String.eqb_refl. reflexivity.
  - destruct (String.eqb k' k) eqn:E; simpl; rewrite E; [reflexivity | exact IH].
Qed.

Lemma dict_get_set_neq d k k' v :
  k' <> k -> dict_get (dict_set d k v) k' = dict_get d k'.
Proof.
  intros Hne. induction d as [|[k0 v0] d IH]; simpl.
  - destruct (String.eqb_spec k k'); [congruence | reflexivity].
  - destruct (String.eqb_spec k0 k) as [->|Hk]; simpl.
    + destruct (String.eqb_spec k k'); [congruence | reflexivity].
    + destruct (String.eqb_spec k0 k'); [reflexivity | exact IH].
Qed.

Lemma dict_get_In d k v : dict_get d k = Some v -> In (k, v) d.
Proof.
  induction d as [|[k' v'] d IH]; simpl; [discriminate|].
  destruct (String.eqb_spec k' k) as [->|Hk].
  - intros H. inversion H. left. reflexivity.
  - intros H. right. apply IH, H.
Qed.

Lemma dict_get_keys d k v : dict_get d k = Some v -> In k (dict_keys d).
Proof.
  intros H. apply dict_get_In in H.
  apply (in_map fst) in H. exact H.
Qed.

Lemma In_dict_get d k v :
  NoDup (dict_keys d) -> In (k, v) d -> dict_get d k = Some v.
Proof.
  induction d as [|[k' v'] d IH]; simpl; [intros _ []|].
  intros Hnd [E|Hin].
  - inversion E; subst. rewrite String.eqb_refl. reflexivity.
  - inversion Hnd; subst.
    destruct (String.eqb_spec k' k) as [->|Hk].
    + exfalso. apply H1. apply (in_map fst) in Hin. exact Hin.
    + apply IH; assumption.
Qed.

Lemma dict_keys_set_present d k v :
  In k (dict_keys d) -> dict_keys (dict_set d k v) = dict_keys d.
Proof.
  induction d as [|[k' v'] d IH]; simpl; [intros []|].
  destruct (String.eqb_spec k' k) as [->|Hk]; simpl; [reflexivity|].
  intros [E|Hin]; [congruence|]. rewrite IH by exact Hin. reflexivity.
Qed.

Lemma dict_keys_set_absent d k v :
  ~ In k (dict_keys d) -> dict_keys (dict_set d k v) = dict_keys d ++ [k].
Proof.
  induction d as [|[k' v'] d IH]; simpl; [reflexivity|].
  intros Hn. destruct (String.eqb_spec k' k) as [->|Hk]; [tauto|].
  simpl. rewrite IH by tauto. reflexivity.
Qed.

Lemma dict_set_NoDup d k v :
  NoDup (dict_keys d) -> NoDup (dict_keys (dict_set d k v)).
Proof.
  intros Hnd. destruct (in_dec string_dec k (dict_keys d)) as [Hin|Hn].
  - rewrite dict_keys_set_present by exact Hin. exact Hnd.
  - rewrite dict_keys_set_absent by exact Hn.
    apply NoDup_app; [exact Hnd | repeat constructor; intros [] |].
    intros x Hx [<-|[]]. exact (Hn Hx).
Qed.

(** With distinct keys, storing under a present key rewrites that one
    entry. *)
Lemma dict_set_map d k v :
  NoDup (dict_keys d) -> In k (dict_keys d) ->
  dict_set d k v =
  map (fun e => if String.eqb (fst e) k then (fst e, v) else e) d.
Proof.
  induction d as [|[k' v'] d IH]; simpl; [intros _ []|].
  intros Hnd Hin. inversion Hnd; subst.
  destruct (String.eqb_spec k' k) as [->|Hk].
  - f_equal. clear IH Hin Hnd H2.
    induction d as [|[k0 v0] d IHd]; simpl; [reflexivity|].
    simpl in H1.
    destruct (String.eqb_spec k0 k) as [->|Hk0]; [tauto|].
    f_equal. apply IHd. tauto.
  - destruct Hin as [E|Hin]; [congruence|].
    f_equal. apply IH; assumption.
Qed.

End DictFacts.

(** ** One turn of the auction *)

Lemma auction_step_spec (key : string) (st st' : auction_state) (u u' : bool) :
  auction_step key st u = (st', u') ->
  (st' = st /\ u' = u) \/ (update key st st' /\ u' = true).
Proof.
  unfold auction_step.
  destruct (dict_get (answer_id_to_predict_val st) key)
    as [[|[text score] rest]|] eqn:Hkey.
  - intros H. inversion H. left. split; reflexivity.
  - destruct (dict_get (answer_text_dict st) text) as [[score0 id0]|] eqn:Htext.
    + destruct (Qltb score0 score) eqn:Hcmp.
      * destruct (dict_get (answer_id_to_predict_val st) id0) as [tmp|] eqn:Hid.
        -- intros H. inversion H. right. split; [|reflexivity].
           eapply update_displace; eassumption.
        -- intros H. inversion H. left. split; reflexivity.
      * destruct (String.eqb_spec id0 key) as [->|Hne]; simpl.
        -- intros H. inversion H. left. split; reflexivity.
        -- intros H. inversion H. right. split; [|reflexivity].
           eapply update_lose; eassumption.
    + intros H. inversion H. right. split; [|reflexivity].
      eapply update_grant; eassumption.
  - intros H. inversion H. left. split; reflexivity.
Qed.

Lemma Qltb_refl_false (x : Q) : Qltb x x = false.
Proof. apply Qltb_irrefl. reflexivity. Qed.

(** In a state satisfying the invariant the displaced holder is another
    key and has the disputed text at the head of its list. *)
Lemma displaced_holder (st : auction_state) key text score rest score0 id0 :
  auction_inv st ->
  dict_get (answer_id_to_predict_val st) key = Some ((text, score) :: rest) ->
  dict_get (answer_text_dict st) text = Some (score0, id0) ->
  Qltb score0 score = true ->
  id0 <> key /\
  exists rest0,
    dict_get (answer_id_to_predict_val st) id0
    = Some ((text, score0) :: rest0).
Proof.
  intros [_ Hinv] Hkey Htext Hcmp.
  destruct (Hinv _ _ _ Htext) as [rest0 Hid]. split; [|exists rest0; exact Hid].
  intros ->. rewrite Hkey in Hid. inversion Hid; subst.
  rewrite Qltb_refl_false in Hcmp. discriminate.
Qed.

Lemma update_inv (key : string) (st st' : auction_state) :
  auction_inv st -> update key st st' -> auction_inv st'.
Proof.
  intros Hinv Hup. pose proof Hinv as [Hnd Hhead].
  destruct Hup as [text score rest Hkey Htext
                  |text score rest score0 id0 Hkey Htext Hcmp Hne
                  |text score rest score0 id0 tmp Hkey Htext Hcmp Hid];
    split; simpl.
  - exact Hnd.
  - intros t s id. destruct (string_dec t text) as [->|Ht].
    + rewrite dict_get_set_eq. intros E. inversion E; subst.
      exists rest. exact Hkey.
    + rewrite dict_get_set_neq by exact Ht. apply Hhead.
  - apply dict_set_NoDup, Hnd.
  - intros t s id Ht. destruct (Hhead _ _ _ Ht) as [r Hr].
    destruct (string_dec id key) as [->|Hid].
    + rewrite Hkey in Hr. inversion Hr; subst.
      rewrite Htext in Ht. inversion Ht; subst. contradiction.
    + exists r. rewrite dict_get_set_neq by exact Hid. exact Hr.
  - apply dict_set_NoDup, Hnd.
  - destruct (displaced_holder st key text score rest score0 id0
                Hinv Hkey Htext Hcmp) as [Hne [rest0 Hid0]].
    intros t s id. destruct (string_dec t text) as [->|Ht].
    + rewrite dict_get_set_eq. intros E. inversion E; subst.
      exists rest. rewrite dict_get_set_neq by (intros ->; exact (Hne eq_refl)).
      exact Hkey.
    + rewrite dict_get_set_neq by exact Ht. intros Hget.
      destruct (Hhead _ _ _ Hget) as [r Hr].
      destruct (string_dec id id0) as [->|Hid'].
      * rewrite Hid0 in Hr. inversion Hr; subst. contradiction.
      * exists r. rewrite dict_get_set_neq by exact Hid'. exact Hr.
Qed.

Lemma list_sum_map_lt {A} (f g : A -> nat) (l : list A) :
  (forall x, In x l -> (g x <= f x)%nat) ->
  (exists x, In x l /\ (g x < f x)%nat) ->
  (list_sum (map g l) < list_sum (map f l))%nat.
Proof.
  induction l as [|a l IH]; intros Hle [x [Hin Hlt]]; [destruct Hin|].
  simpl. assert (Ha : (g a <= f a)%nat) by (apply Hle; left; reflexivity).
  assert (Hl : (list_sum (map g l) <= list_sum (map f l))%nat).
  { clear -Hle. induction l as [|b l IHl]; simpl; [lia|].
    assert ((g b <= f b)%nat) by (apply Hle; right; left; reflexivity).
    assert ((list_sum (map g l) <= list_sum (map f l))%nat).
    { apply IHl. intros y [->|Hy]; apply Hle; [left | right; right]; auto. }
    lia. }
  destruct Hin as [->|Hin].
  - lia.
  - assert ((list_sum (map g l) < list_sum (map f l))%nat).
    { apply IH; [intros y Hy; apply Hle; right; exact Hy|].
      exists x. split; assumption. }
    lia.
Qed.

Lemma weight_le_length atd kv : (weight atd kv <= List.length (snd kv))%nat.
Proof. unfold weight. lia. Qed.

(** Every change strictly lowers the measure. *)
Lemma update_measure (key : string) (st st' : auction_state) :
  auction_inv st -> update key st st' -> (measure st' < measure st)%nat.
Proof.
  intros Hinv Hup. pose proof Hinv as [Hnd Hhead].
  destruct Hup as [text score rest Hkey Htext
                  |text score rest score0 id0 Hkey Htext Hcmp Hne
                  |text score rest score0 id0 tmp Hkey Htext Hcmp Hid];
    unfold measure; cbn [answer_id_to_predict_val answer_text_dict].
  - (* granted *)
    apply list_sum_map_lt.
    + intros [k v] Hin. unfold weight, holds; cbn [fst snd].
      destruct v as [|[t s] v]; [cbn [List.length]; lia|].
      cbn [List.length].
      destruct (string_dec t text) as [->|Ht].
      * rewrite Htext, dict_get_set_eq.
        destruct (String.eqb key k); lia.
      * rewrite dict_get_set_neq by exact Ht.
        destruct (dict_get (answer_text_dict st) t) as [[s1 i1]|]; lia.
    + exists (key, (text, score) :: rest). split; [apply dict_get_In, Hkey|].
      unfold weight, holds; cbn [fst snd List.length].
      rewrite Htext, dict_get_set_eq, String.eqb_refl. lia.
  - (* lost *)
    rewrite (@dict_set_map cands _ key rest Hnd (dict_get_keys _ _ _ Hkey)).
    rewrite map_map.
    assert (Hstrict :
      (weight (answer_text_dict st) (key, rest)
       < weight (answer_text_dict st) (key, (text, score) :: rest))%nat).
    { pose proof (weight_le_length (answer_text_dict st) (key, rest)) as Hw.
      cbn [snd] in Hw. unfold weight at 2, holds; cbn [fst snd List.length].
      rewrite Htext.
      destruct (String.eqb_spec id0 key); [contradiction|]. lia. }
    apply list_sum_map_lt.
    + intros [k v] Hin. cbn [fst].
      destruct (String.eqb_spec k key) as [->|Hk]; [|lia].
      rewrite (In_dict_get _ _ _ Hnd Hin) in Hkey. inversion Hkey; subst.
      apply Nat.lt_le_incl. exact Hstrict.
    + exists (key, (text, score) :: rest). split; [apply dict_get_In, Hkey|].
      cbn [fst]. rewrite String.eqb_refl. exact Hstrict.
  - (* displaced *)
    destruct (displaced_holder st key text score rest score0 id0
                Hinv Hkey Htext Hcmp) as [Hne [rest0 Hid0]].
    rewrite Hid0 in Hid. inversion Hid; subst tmp. cbn [Py.tail1 tl].
    rewrite (@dict_set_map cands _ id0 rest0 Hnd (dict_get_keys _ _ _ Hid0)).
    rewrite map_map.
    set (atd' := dict_set (answer_text_dict st) text (score, key)).
    apply list_sum_map_lt.
    + intros [k v] Hin. cbn [fst].
      pose proof (In_dict_get _ _ _ Hnd Hin) as Hget.
      destruct (String.eqb_spec k id0) as [->|Hk].
      * rewrite Hid0 in Hget. inversion Hget; subst.
        pose proof (weight_le_length atd' (id0, rest0)) as Hw.
        cbn [snd] in Hw. unfold weight at 2, holds; cbn [fst snd List.length].
        rewrite Htext, String.eqb_refl.
        replace (S (List.length rest0) - 1)%nat with (List.length rest0)
          by lia.
        exact Hw.
      * unfold weight, holds; cbn [fst snd].
        destruct v as [|[t s] v]; [cbn [List.length]; lia|].
        cbn [List.length]. unfold atd'.
        destruct (string_dec t text) as [->|Ht].
        -- rewrite Htext, dict_get_set_eq.
           destruct (String.eqb_spec id0 k); [congruence|].
           destruct (String.eqb key k); lia.
        -- rewrite dict_get_set_neq by exact Ht.
           destruct (dict_get (answer_text_dict st) t) as [[s1 i1]|]; lia.
    + exists (key, (text, score) :: rest). split; [apply dict_get_In, Hkey|].
      cbn [fst]. destruct (String.eqb_spec key id0) as [E|_]; [congruence|].
      unfold weight, holds, atd'; cbn [fst snd List.length].
      rewrite Htext, dict_get_set_eq, String.eqb_refl.
      destruct (String.eqb_spec id0 key); [contradiction|]. lia.
Qed.

(** Lists are only ever replaced by their tails. *)
Lemma update_texts (P : string -> Prop) (key : string)
    (st st' : auction_state) :
  update key st st' ->
  texts_all P (answer_id_to_predict_val st) ->
  texts_all P (answer_id_to_predict_val st').
Proof.
  assert (Hset : forall pv k v' v,
            dict_get pv k = Some v -> (forall x, In x v' -> In x v) ->
            texts_all P pv -> texts_all P (dict_set pv k v')).
  { intros pv k v' v Hget Hsub Hall. unfold texts_all in *.
    induction pv as [|[k0 v0] pv IH]; simpl in *; [discriminate|].
    destruct (String.eqb_spec k0 k) as [Ek|Hk].
    - inversion Hget; subst v0.
      intros key0 value t s [E|Hin] Hts.
      + inversion E; subst. eapply Hall; [left; reflexivity|].
        apply Hsub. exact Hts.
      + eapply Hall; [right; exact Hin | exact Hts].
    - intros key0 value t s [E|Hin] Hts.
      + eapply Hall; [left; exact E | exact Hts].
      + eapply IH; eauto. }
  intros Hup Hall.
  destruct Hup as [text score rest Hkey Htext
                  |text score rest score0 id0 Hkey Htext Hcmp Hne
                  |text score rest score0 id0 tmp Hkey Htext Hcmp Hid]; simpl.
  - exact Hall.
  - apply (Hset _ _ _ _ Hkey); [|exact Hall]. intros x Hx. right. exact Hx.
  - apply (Hset _ _ _ _ Hid); [|exact Hall].
    intros x Hx. destruct tmp; [destruct Hx | right; exact Hx].
Qed.

(** ** Passes and the loop *)

Lemma auction_keys_spec (keys : list string) :
  forall st u st' u',
    auction_inv st ->
    auction_keys keys st u = (st', u') ->
    auction_inv st' /\
    ((st' = st /\ u' = u) \/ (u' = true /\ (measure st' < measure st)%nat)) /\
    (forall P, texts_all P (answer_id_to_predict_val st) ->
               texts_all P (answer_id_to_predict_val st')).
Proof.
  induction keys as [|key keys IH]; intros st u st' u' Hinv H; simpl in H.
  - inversion H; subst. split; [exact Hinv|]. split; [left; auto | auto].
  - destruct (auction_step key st u) as [st1 u1] eqn:Hstep.
    apply auction_step_spec in Hstep.
    destruct Hstep as [[-> ->]|[Hup ->]].
    + exact (IH _ _ _ _ Hinv H).
    + pose proof (update_inv _ _ _ Hinv Hup) as Hinv1.
      pose proof (update_measure _ _ _ Hinv Hup) as Hm1.
      destruct (IH _ _ _ _ Hinv1 H) as (Hinv' & Hcase & Htexts).
      split; [exact Hinv'|]. split.
      * right. destruct Hcase as [[-> ->]|[-> Hm]]; split; auto; lia.
      * intros P HP. apply Htexts. exact (update_texts P _ _ _ Hup HP).
Qed.

Lemma auction_keys_stable (keys : list string) :
  forall st st',
    auction_keys keys st false = (st', false) ->
    st' = st /\
    forall key, In key keys -> auction_step key st false = (st, false).
Proof.
  assert (Htrue : forall keys st st' u',
            auction_keys keys st true = (st', u') -> u' = true).
  { clear keys. induction keys as [|key keys IH]; intros st st' u' H; simpl in H.
    - inversion H. reflexivity.
    - destruct (auction_step key st true) as [st1 u1] eqn:Hstep.
      apply auction_step_spec in Hstep.
      destruct Hstep as [[-> ->]|[_ ->]]; exact (IH _ _ _ H). }
  induction keys as [|key keys IH]; intros st st' H; simpl in H.
  - inversion H. split; [reflexivity | intros key []].
  - destruct (auction_step key st false) as [st1 u1] eqn:Hstep.
    pose proof Hstep as Hspec. apply auction_step_spec in Hspec.
    destruct Hspec as [[-> ->]|[_ ->]].
    + destruct (IH _ _ H) as [-> Hall]. split; [reflexivity|].
      intros k [<-|Hk]; [exact Hstep | exact (Hall k Hk)].
    + apply Htrue in H. discriminate.
Qed.

(** A pass that reports no update has changed nothing, and the state it
    leaves is stable. *)
Lemma auction_pass_false (st st' : auction_state) :
  auction_pass st = (st', false) -> st' = st /\ stable st.
Proof.
  unfold auction_pass, stable. intros H.
  apply auction_keys_stable in H. exact H.
Qed.

Lemma auction_pass_true (st st' : auction_state) :
  auction_inv st -> auction_pass st = (st', true) ->
  auction_inv st' /\ (measure st' < measure st)%nat /\
  (forall P, texts_all P (answer_id_to_predict_val st) ->
             texts_all P (answer_id_to_predict_val st')).
Proof.
  unfold auction_pass. intros Hinv H.
  destruct (auction_keys_spec _ _ _ _ _ Hinv H) as (Hinv' & Hcase & Htexts).
  split; [exact Hinv'|]. split; [|exact Htexts].
  destruct Hcase as [[_ E]|[_ Hm]]; [discriminate | exact Hm].
Qed.

(** With more fuel than the measure the loop returns, after at most
    [measure + 1] passes, in a stable state. *)
Lemma auction_loop_returns (fuel : nat) :
  forall st,
    auction_inv st -> (measure st < fuel)%nat ->
    exists st' n,
      auction_loop fuel st = Some (st', n) /\
      (n <= S (measure st))%nat /\
      auction_inv st' /\ stable st' /\
      (forall P, texts_all P (answer_id_to_predict_val st) ->
                 texts_all P (answer_id_to_predict_val st')).
Proof.
  induction fuel as [|fuel IH]; intros st Hinv Hfuel; [lia|].
  simpl. destruct (auction_pass st) as [st1 [|]] eqn:Hpass.
  - destruct (auction_pass_true _ _ Hinv Hpass) as (Hinv1 & Hm & Ht).
    destruct (IH st1 Hinv1) as (st' & n & Hrun & Hn & Hinv' & Hst & Ht');
      [lia|].
    rewrite Hrun. simpl. exists st', (S n).
    split; [reflexivity|]. split; [lia|]. split; [exact Hinv'|].
    split; [exact Hst|]. intros P HP. apply Ht', Ht, HP.
  - destruct (auction_pass_false _ _ Hpass) as [-> Hst].
    exists st, 1%nat. split; [reflexivity|]. split; [lia|].
    split; [exact Hinv|]. split; [exact Hst | auto].
Qed.

Lemma auction_loop_more_fuel (f : nat) :
  forall f' st r,
    auction_loop f st = Some r -> (f <= f')%nat -> auction_loop f' st = Some r.
Proof.
  induction f as [|f IH]; intros f' st r H Hle; [discriminate|].
  destruct f' as [|f']; [lia|]. simpl in *.
  destruct (auction_pass st) as [st1 [|]]; [|exact H].
  destruct (auction_loop f st1) as [r1|] eqn:E; [|discriminate].
  rewrite (IH f' st1 r1 E) by lia. exact H.
Qed.

Lemma initial_predict_val_NoDup (entries : list doc_entry) :
  NoDup (dict_keys (initial_predict_val entries)).
Proof.
  unfold initial_predict_val.
  assert (H : forall d, NoDup (dict_keys d) ->
            NoDup (dict_keys (fold_left
              (fun d e => dict_set d (answer_id e) (val e)) entries d))).
  { induction entries as [|e entries IH]; intros d Hd; simpl; [exact Hd|].
    apply IH. apply dict_set_NoDup. exact Hd. }
  apply H. constructor.
Qed.

Lemma initial_state_inv (entries : list doc_entry) :
  auction_inv (initial_state entries).
Proof.
  split; [apply initial_predict_val_NoDup|].
  intros text score id H. discriminate.
Qed.

Lemma initial_measure (entries : list doc_entry) :
  measure (initial_state entries)
  = total_candidates (initial_predict_val entries).
Proof.
  unfold measure, total_candidates. simpl.
  apply f_equal, map_ext. intros [k v]. unfold weight, holds; simpl.
  destruct v as [|[t s] v]; simpl; lia.
Qed.

(** ** The auction: claims *)

(** C1: on the scenario the loop leaves after three passes; choice 0 has
    used up its list, choices 1 and 2 keep [unused1] and [unused2], and
    the output is blank 1 -> choice 1, blank 2 -> choice 2, blank 3
    unresolved. *)
Theorem C1_scenario (extra : nat) :
  auction_loop (3 + extra) (initial_state scenario)
  = Some (mkState
            [ ("0", []);
              ("1", [("[unused1]", 95 # 100); ("[unused3]", 2 # 10)]%Q);
              ("2", [("[unused2]", 8 # 10); ("[unused1]", 3 # 10)]%Q) ]%string
            [ ("[unused1]", ((95 # 100)%Q, "1"));
              ("[unused2]", ((8 # 10)%Q, "2")) ]%string,
          3%nat) /\
  predict_document (3 + extra) scenario = Some [1; 2; -1].
Proof.
  assert (H : auction_loop 3 (initial_state scenario)
              = Some (mkState
            [ ("0", []);
              ("1", [("[unused1]", 95 # 100); ("[unused3]", 2 # 10)]%Q);
              ("2", [("[unused2]", 8 # 10); ("[unused1]", 3 # 10)]%Q) ]%string
            [ ("[unused1]", ((95 # 100)%Q, "1"));
              ("[unused2]", ((8 # 10)%Q, "2")) ]%string,
          3%nat)) by (vm_compute; reflexivity).
  apply (auction_loop_more_fuel 3 (3 + extra)) in H; [|lia].
  split; [exact H|].
  unfold predict_document. rewrite H. vm_compute. reflexivity.
Qed.

(** C2, as stated: with one choice and one candidate the first pass only
    grants the marker, so it updates without shortening any list, and the
    loop needs a second pass to leave: two passes for one candidate. *)
Lemma C2_counterexample :
  ~ pass_shrinks (initial_state single_choice) /\
  ~ passes_within_total single_choice.
Proof.
  split.
  - intros H.
    assert (E : auction_pass (initial_state single_choice)
                = (mkState [("0", [("[unused1]", 9 # 10)]%Q)]%string
                     [("[unused1]", ((9 # 10)%Q, "0"))]%string, true))
      by (vm_compute; reflexivity).
    specialize (H _ E). vm_compute in H. lia.
  - intros H.
    assert (E : auction_loop 2 (initial_state single_choice)
                = Some (mkState [("0", [("[unused1]", 9 # 10)]%Q)]%string
                          [("[unused1]", ((9 # 10)%Q, "0"))]%string, 2%nat))
      by (vm_compute; reflexivity).
    specialize (H _ _ _ E). vm_compute in H. lia.
Qed.

(** C2, amended: the loop terminates for every document.  A pass that
    reports no update leaves the loop at once and has changed nothing.  A
    pass that reports an update strictly lowers the measure - the number
    of candidates left, not counting a head that is granted to its own
    choice - so it drops a head or grants a marker to a choice that held
    none.  The loop runs at most as many updating passes as there are
    candidates, hence at most that many passes plus the final one. *)
Theorem C2_auction_terminates (entries : list doc_entry) :
  let st0 := initial_state entries in
  let total := total_candidates (initial_predict_val entries) in
  auction_inv st0 /\ measure st0 = total /\
  (forall st st' fuel,
     auction_pass st = (st', false) ->
     st' = st /\ auction_loop (S fuel) st = Some (st, 1%nat)) /\
  (forall st st',
     auction_inv st -> auction_pass st = (st', true) ->
     auction_inv st' /\ (measure st' < measure st)%nat) /\
  exists st' n,
    (n <= total + 1)%nat /\ stable st' /\
    forall extra, auction_loop (S total + extra) st0 = Some (st', n).
Proof.
  intros st0 total.
  split; [apply initial_state_inv|].
  split; [apply initial_measure|].
  split; [|split].
  - intros st st' fuel H. destruct (auction_pass_false _ _ H) as [-> _].
    split; [reflexivity|]. simpl. rewrite H. reflexivity.
  - intros st st' Hinv H.
    destruct (auction_pass_true _ _ Hinv H) as (Hinv' & Hm & _). auto.
  - destruct (auction_loop_returns (S total) st0 (initial_state_inv entries))
      as (st' & n & Hrun & Hn & _ & Hst & _).
    { unfold st0, total. rewrite initial_measure. lia. }
    exists st', n. split.
    { unfold st0 in Hn. rewrite initial_measure in Hn. fold total in Hn. lia. }
    split; [exact Hst|].
    intros extra. apply (auction_loop_more_fuel (S total)); [exact Hrun | lia].
Qed.

(** C3: when the head of [key]'s list is a text held by another id with
    an equal score, the turn reports an update, leaves [answer_text_dict]
    as it is - the holder keeps the text - leaves every other list as it
    is, and replaces [key]'s list by its tail. *)
Theorem C3_tie_keeps_incumbent (key : string) (st : auction_state)
    (is_update : bool) (text : string) (score score0 : Q) (id0 : string)
    (rest : cands) :
  dict_get (answer_id_to_predict_val st) key = Some ((text, score) :: rest) ->
  dict_get (answer_text_dict st) text = Some (score0, id0) ->
  id0 <> key ->
  (score == score0)%Q ->
  exists st',
    auction_step key st is_update = (st', true) /\
    answer_text_dict st' = answer_text_dict st /\
    dict_get (answer_text_dict st') text = Some (score0, id0) /\
    dict_get (answer_id_to_predict_val st') key = Some rest /\
    forall k, k <> key ->
      dict_get (answer_id_to_predict_val st') k
      = dict_get (answer_id_to_predict_val st) k.
Proof.
  intros Hkey Htext Hne Heq.
  exists (mkState (dict_set (answer_id_to_predict_val st) key rest)
            (answer_text_dict st)).
  split.
  - unfold auction_step. rewrite Hkey, Htext.
    rewrite (Qltb_irrefl score score0 Heq).
    destruct (String.eqb_spec id0 key); [contradiction | reflexivity].
  - simpl. split; [reflexivity|]. split; [exact Htext|].
    split; [apply dict_get_set_eq|].
    intros k Hk. apply dict_get_set_neq. exact Hk.
Qed.

Lemma C3_tie_keeps_incumbent_witness :
  exists st',
    auction_step "1"
      (mkState [("0", [("[unused1]", 1 # 2)]%Q);
                ("1", [("[unused1]", 2 # 4); ("[unused2]", 1 # 4)]%Q)]%string
         [("[unused1]", ((1 # 2)%Q, "0"))]%string) false = (st', true) /\
    answer_text_dict st' = [("[unused1]", ((1 # 2)%Q, "0"))]%string /\
    dict_get (answer_text_dict st') "[unused1]" = Some ((1 # 2)%Q, "0"%string) /\
    dict_get (answer_id_to_predict_val st') "1"
    = Some [("[unused2]"%string, (1 # 4)%Q)] /\
    forall k, k <> "1"%string ->
      dict_get (answer_id_to_predict_val st') k
      = dict_get [("0", [("[unused1]", 1 # 2)]%Q);
                  ("1", [("[unused1]", 2 # 4); ("[unused2]", 1 # 4)]%Q)]%string k.
Proof.
  apply (C3_tie_keeps_incumbent "1"
           (mkState [("0", [("[unused1]", 1 # 2)]%Q);
                     ("1", [("[unused1]", 2 # 4); ("[unused2]", 1 # 4)]%Q)]%string
              [("[unused1]", ((1 # 2)%Q, "0"))]%string)
           false "[unused1]" (2 # 4) (1 # 2) "0"
           [("[unused2]"%string, (1 # 4)%Q)]).
  - reflexivity.
  - reflexivity.
  - discriminate.
  - reflexivity.
Defined.

(** ** Empty candidate pools *)

Lemma texts_all_set (P : string -> Prop) (d : list (string * cands))
    (k : string) (v : cands) :
  texts_all P d -> (forall t s, In (t, s) v -> P t) ->
  texts_all P (dict_set d k v).
Proof.
  unfold texts_all. intros Hd Hv.
  induction d as [|[k0 v0] d IH]; simpl.
  - intros key value t s [E|[]] Hts. inversion E; subst. eapply Hv, Hts.
  - destruct (String.eqb_spec k0 k) as [Ek|Hk].
    + intros key value t s [E|Hin] Hts.
      * inversion E; subst. eapply Hv, Hts.
      * eapply Hd; [right; exact Hin | exact Hts].
    + intros key value t s [E|Hin] Hts.
      * eapply Hd; [left; exact E | exact Hts].
      * eapply IH; [|exact Hin | exact Hts].
        intros; eapply Hd; [right|]; eassumption.
Qed.

Lemma initial_texts (P : string -> Prop) (entries : list doc_entry) :
  (forall e t s, In e entries -> In (t, s) (val e) -> P t) ->
  texts_all P (initial_predict_val entries).
Proof.
  unfold initial_predict_val. intros H.
  assert (G : forall d, texts_all P d ->
            texts_all P (fold_left
              (fun d e => dict_set d (answer_id e) (val e)) entries d)).
  { induction entries as [|e entries IH]; intros d Hd; simpl; [exact Hd|].
    apply IH.
    - intros e' t s He'. apply (H e' t s). right. exact He'.
    - apply texts_all_set; [exact Hd|].
      intros t s. apply (H e t s). left. reflexivity. }
  apply G. intros key value t s [].
Qed.

Lemma total_candidates_set (d : list (string * cands)) (k : string) (v : cands) :
  (total_candidates (dict_set d k v) <= total_candidates d + List.length v)%nat.
Proof.
  unfold total_candidates.
  induction d as [|[k0 v0] d IH]; simpl; [lia|].
  destruct (String.eqb k0 k); simpl; lia.
Qed.

Lemma initial_total_le (entries : list doc_entry) :
  (total_candidates (initial_predict_val entries)
   <= list_sum (map (fun e => List.length (val e)) entries))%nat.
Proof.
  unfold initial_predict_val.
  assert (G : forall d,
    (total_candidates (fold_left
       (fun d e => dict_set d (answer_id e) (val e)) entries d)
     <= total_candidates d
        + list_sum (map (fun e => List.length (val e)) entries))%nat).
  { induction entries as [|e entries IH]; intros d; simpl; [lia|].
    specialize (IH (dict_set d (answer_id e) (val e))).
    pose proof (total_candidates_set d (answer_id e) (val e)). lia. }
  apply (G []).
Qed.

(** Lists whose texts name no slot leave every blank unresolved. *)
Lemma output_unresolved (blanks : nat) (pv : list (string * cands)) :
  texts_all (fun t => target_slot t = None) pv ->
  output_of blanks pv = repeat (-1) blanks.
Proof.
  unfold output_of. generalize (repeat (-1) blanks) as out.
  induction pv as [|[k v] pv IH]; intros out H; simpl; [reflexivity|].
  assert (E : write_back out k v = out).
  { destruct v as [|[t s] v]; [reflexivity|]. simpl.
    rewrite (H k ((t, s) :: v) t s); [reflexivity | left | left]; reflexivity. }
  rewrite E. apply IH.
  intros key value t s Hin. apply (H key value t s). right. exact Hin.
Qed.

(** C10: with no preliminary prediction the n-best list is the single
    placeholder ("empty", 0.0), and an n-best list is never empty; a
    document all of whose choices have an empty candidate pool ends with
    every blank unresolved. *)
Theorem C10_empty_pool (final_text_of : PrelimPrediction -> string)
    (exp : Q -> Q) (n_best_size : Z) :
  nbest_of final_text_of n_best_size [] = [mkNbest "empty" 0%Q] /\
  (forall prelim, nbest_of final_text_of n_best_size prelim <> []) /\
  forall ids extra,
    let entries :=
      empty_pool_document final_text_of exp n_best_size ids in
    predict_document (S (List.length ids) + extra) entries
    = Some (repeat (-1) (blanks_of entries)).
Proof.
  split; [reflexivity|]. split.
  - intros prelim. unfold nbest_of, with_placeholder.
    destruct (nbest_loop _ _ _ _ _); discriminate.
  - intros ids extra entries.
    assert (Hval : forall e, In e entries ->
              exists p, val e = [("empty"%string, p)]).
    { intros e He. unfold entries, empty_pool_document in He.
      apply in_map_iff in He. destruct He as ([n id] & <- & _).
      simpl. eexists. reflexivity. }
    assert (Htexts : texts_all (fun t => target_slot t = None)
                       (initial_predict_val entries)).
    { apply initial_texts. intros e t s He Hts.
      destruct (Hval e He) as [p Hp]. rewrite Hp in Hts.
      destruct Hts as [E|[]]. inversion E. reflexivity. }
    assert (Htotal : (total_candidates (initial_predict_val entries)
                      <= List.length ids)%nat).
    { etransitivity; [apply initial_total_le|].
      unfold entries, empty_pool_document. rewrite map_map.
      clear. induction ids as [|[n id] ids IH]; simpl; lia. }
    destruct (auction_loop_returns
                (S (total_candidates (initial_predict_val entries)))
                (initial_state entries) (initial_state_inv entries))
      as (st' & n & Hrun & _ & _ & _ & Hkeep).
    { rewrite initial_measure. lia. }
    apply (auction_loop_more_fuel _ (S (List.length ids) + extra)) in Hrun;
      [|lia].
    unfold predict_document. rewrite Hrun. f_equal.
    apply output_unresolved. apply Hkeep. exact Htexts.
Qed.

(** ** The final assignment *)

(** In a stable state every key with candidates left holds the text at
    the head of its list. *)
Lemma stable_holder (st : auction_state) key text score rest :
  auction_inv st -> stable st ->
  dict_get (answer_id_to_predict_val st) key = Some ((text, score) :: rest) ->
  exists score0, dict_get (answer_text_dict st) text = Some (score0, key).
Proof.
  intros [_ Hhead] Hst Hkey.
  specialize (Hst key (dict_get_keys _ _ _ Hkey)).
  unfold auction_step in Hst. rewrite Hkey in Hst.
  destruct (dict_get (answer_text_dict st) text) as [[score0 id0]|] eqn:Htext;
    [|discriminate].
  destruct (Qltb score0 score).
  - destruct (Hhead _ _ _ Htext) as [r Hr]. rewrite Hr in Hst. discriminate.
  - destruct (String.eqb_spec id0 key) as [->|Hne]; [|discriminate].
    exists score0. reflexivity.
Qed.

(** Hence no two keys end with the same text at the head. *)
Lemma stable_heads_distinct (st : auction_state) k1 k2 t1 s1 r1 t2 s2 r2 :
  auction_inv st -> stable st -> k1 <> k2 ->
  dict_get (answer_id_to_predict_val st) k1 = Some ((t1, s1) :: r1) ->
  dict_get (answer_id_to_predict_val st) k2 = Some ((t2, s2) :: r2) ->
  t1 <> t2.
Proof.
  intros Hinv Hst Hne H1 H2 ->.
  destruct (stable_holder _ _ _ _ _ Hinv Hst H1) as [a Ha].
  destruct (stable_holder _ _ _ _ _ Hinv Hst H2) as [b Hb].
  congruence.
Qed.

(** C4, evaluated: in [digit_document] choice "0" wins [unused1] and
    choice "1", having lost it, falls back on the token "1".  The two
    heads differ as texts, so the auction is stable, but both name slot 0:
    blank 1 is written twice and ends with choice 1, the loser of the
    auction for the marker. *)
Theorem C4_blank_written_twice :
  exists st,
    auction_loop 3 (initial_state digit_document) = Some (st, 3%nat) /\
    answer_id_to_predict_val st
    = [ ("0", [("[unused1]", 9 # 10); ("1", 1 # 10)]%Q);
        ("1", [("1", 2 # 10)]%Q) ]%string /\
    target_slot "[unused1]" = Some 0 /\
    target_slot "1" = Some 0 /\
    write_back [-1] "0" [("[unused1]", 9 # 10); ("1", 1 # 10)]%Q%string = [0] /\
    write_back [0] "1" [("1", 2 # 10)]%Q%string = [1] /\
    predict_document 3 digit_document = Some [1].
Proof.
  eexists. split; [vm_compute; reflexivity|].
  repeat split; vm_compute; reflexivity.
Qed.

(** ** Training positions *)

(** What one training turn of the doc-span loop decides: the window is
    dropped according to [example.position], an index into the document
    tokens, while the target is computed from [tok_position], an index
    into the sub-tokens. *)
Lemma span_feature_training vocab max_seq_length ex query_tokens
    tok_to_orig_index all_doc_tokens tok_pos spans uid ex_index span_index
    doc_span ex_pos :
  position ex = Some ex_pos ->
  match span_feature vocab true max_seq_length ex query_tokens
          tok_to_orig_index all_doc_tokens (Some tok_pos) spans uid ex_index
          span_index doc_span with
  | Raised => True
  | Dropped => ex_pos < start doc_span \/ ex_pos > span_end doc_span
  | Kept f =>
      start doc_span <= ex_pos <= span_end doc_span /\
      f_position f
      = Some (len query_tokens + 2 + (tok_pos - start doc_span))
  end.
Proof.
  intros Hpos. unfold span_feature.
  destruct (sequence (map (Py.index tok_to_orig_index) _)); [|exact I].
  destruct (sequence (map (Py.index all_doc_tokens) _)); [|exact I].
  destruct (mask_loop _ 0 _); [|exact I].
  destruct (sequence (map vocab _)); [|exact I].
  destruct (_ && _); [|exact I].
  rewrite Hpos. unfold span_end.
  destruct (Z.ltb_spec ex_pos (start doc_span)); simpl; [lia|].
  destruct (Z.gtb_spec ex_pos (start doc_span + length doc_span - 1));
    simpl; [lia|].
  split; [lia | f_equal; lia].
Qed.

(** C7, evaluated: in [shifted_example] the gold marker is document token
    1 and sub-token 0.  The second window holds the sub-tokens 1 to 2,
    "a" and "b", and not the marker; it is kept all the same, because
    document index 1 lies in [1, 2], and its target is 2, the separator
    after the query, where [query_length + 2 + (gold_index - start)] is
    3 for the document index.  The first window is kept with target 3, not
    the 4 that the document index gives. *)
Theorem C7_training_position_mismatch :
  exists f0 f1,
    convert_examples_to_features sample_tokenize sample_vocab 5
      [shifted_example] 6 1 5 true = Some [f0; f1] /\
    split_doc sample_tokenize (doc_tokens shifted_example) 0 0
    = ([0; 0; 1; 2], [1; 2; 3], ["[unused1]"; "a"; "b"]%string) /\
    doc_spans 5 3 (max_tokens_for_doc 6 1) 1
    = Some [mkDocSpan 0 2; mkDocSpan 1 2] /\
    tokens f0 = ["[CLS]"; "q"; "[SEP]"; "[unused1]"; "a"; "[SEP]"]%string /\
    f_position f0 = Some 3 /\
    tokens f1 = ["[CLS]"; "q"; "[SEP]"; "a"; "b"; "[SEP]"]%string /\
    f_position f1 = Some 2.
Proof.
  do 2 eexists. split; [vm_compute; reflexivity|].
  repeat split; vm_compute; reflexivity.
Qed.

(** ** Numerals and markers *)

Lemma all_digits_uint (d : Decimal.uint) :
  all_digits (NilEmpty.string_of_uint d) = true.
Proof. induction d; simpl; auto. Qed.

Lemma int_digits_uint (d : Decimal.uint) :
  forall (b : bool) (acc : nat),
    Py.int_digits (NilEmpty.string_of_uint d) b (Z.of_nat acc) =
    match d with
    | Decimal.Nil => if b then Some (Z.of_nat acc) else None
    | _ => Some (Z.of_nat (Nat.of_uint_acc d acc))
    end.
Proof.
  induction d as [|d IH|d IH|d IH|d IH|d IH|d IH|d IH|d IH|d IH|d IH];
    intros b acc; [reflexivity|..];
    cbn [NilEmpty.string_of_uint Py.int_digits Nat.of_uint_acc];
    match goal with
    | |- context [Py.is_digit ?c] =>
        change (Py.is_digit c) with true; cbv iota;
        match goal with
        | |- context [Nat.of_uint_acc d ?a] =>
            replace (10 * Z.of_nat acc + Py.digit_val c) with (Z.of_nat a)
              by (let v := eval vm_compute in (Py.digit_val c) in
                  change (Py.digit_val c) with v;
                  rewrite Nat.tail_mul_spec; lia);
            rewrite (IH true a); destruct d; reflexivity
        end
    end.
Qed.

Lemma to_uint_not_Nil (n : nat) : Nat.to_uint n <> Decimal.Nil.
Proof.
  intros E. pose proof (Unsigned.of_to n) as H. rewrite E in H.
  simpl in H. subst n. discriminate.
Qed.

(** [int(str(n)) == n] *)
Lemma int_str (n : nat) : Py.int (Py.str n) = Some (Z.of_nat n).
Proof.
  unfold Py.str. pose proof (to_uint_not_Nil n) as Hnil.
  pose proof (Unsigned.of_to n) as Hof. unfold Nat.of_uint in Hof.
  pose proof (int_digits_uint (Nat.to_uint n) false 0) as H.
  rewrite Hof in H. change (Z.of_nat 0) with 0 in H.
  destruct (Nat.to_uint n); [contradiction|..]; exact H.
Qed.

Lemma str_inj (a b : nat) : Py.str a = Py.str b -> a = b.
Proof.
  intros E. pose proof (int_str a) as Ha. rewrite E, int_str in Ha.
  inversion Ha. lia.
Qed.

Lemma remove_fuel_empty (f : nat) (p : string) :
  Py.remove_fuel f p EmptyString = EmptyString.
Proof. destruct f; reflexivity. Qed.

Lemma remove_fuel_step (f : nat) (p : string) (c : ascii) (s : string) :
  Py.remove_fuel (S f) p (String c s) =
  if Py.prefixb p (String c s)
  then Py.remove_fuel f p (Py.drop (String.length p) (String c s))
  else String c (Py.remove_fuel f p s).
Proof. reflexivity. Qed.

(** Digits followed by "]" contain no "[unused". *)
Lemma remove_unused_digits (s : string) :
  all_digits s = true ->
  forall f, Py.remove_fuel f "[unused" (s ++ "]") = (s ++ "]")%string.
Proof.
  induction s as [|c s IH]; intros Hd f.
  - destruct f as [|f]; [reflexivity|].
    simpl. rewrite remove_fuel_empty. reflexivity.
  - simpl in Hd. apply andb_true_iff in Hd. destruct Hd as [Hc Hs].
    destruct f as [|f]; [reflexivity|].
    cbn [append Py.remove_fuel Py.prefixb].
    destruct (Ascii.eqb_spec "[" c) as [<-|_]; [discriminate|].
    cbn [andb]. rewrite (IH Hs). reflexivity.
Qed.

(** Removing "]" from digits followed by "]" leaves the digits. *)
Lemma remove_bracket_digits (s : string) :
  all_digits s = true ->
  forall f, (String.length s < f)%nat ->
            Py.remove_fuel f "]" (s ++ "]") = s.
Proof.
  induction s as [|c s IH]; intros Hd f Hf.
  - destruct f as [|f]; [simpl in Hf; lia|].
    simpl. apply remove_fuel_empty.
  - simpl in Hd. apply andb_true_iff in Hd. destruct Hd as [Hc Hs].
    destruct f as [|f]; [lia|].
    cbn [append Py.remove_fuel Py.prefixb].
    destruct (Ascii.eqb_spec "]" c) as [<-|_]; [discriminate|].
    cbn [andb]. rewrite (IH Hs f); [reflexivity | simpl in Hf; lia].
Qed.

Lemma length_append (a b : string) :
  String.length (a ++ b) = (String.length a + String.length b)%nat.
Proof. induction a; simpl; auto. Qed.

(** The marker of blank [n] names slot [n - 1]. *)
Lemma target_slot_marker (n : nat) :
  target_slot (marker n) = Some (Z.of_nat n - 1).
Proof.
  unfold target_slot, marker, Py.remove.
  pose proof (all_digits_uint (Nat.to_uint n)) as Hd. fold (Py.str n) in Hd.
  assert (E1 : Py.remove_fuel (String.length ("[unused" ++ Py.str n ++ "]"))
                 "[unused" ("[unused" ++ Py.str n ++ "]")
               = (Py.str n ++ "]")%string).
  { change ("[unused" ++ Py.str n ++ "]")%string
      with (String "[" ("unused" ++ Py.str n ++ "]")).
    cbn [String.length]. rewrite remove_fuel_step.
    match goal with
    | |- context [Py.prefixb ?a ?b] => change (Py.prefixb a b) with true
    end.
    cbv iota.
    match goal with
    | |- context [Py.drop ?a ?b] =>
        change (Py.drop a b) with (Py.str n ++ "]")%string
    end.
    apply remove_unused_digits. exact Hd. }
  rewrite E1.
  rewrite (remove_bracket_digits _ Hd)
    by (rewrite length_append; simpl; lia).
  rewrite int_str. reflexivity.
Qed.

Lemma marker_inj (a b : nat) : marker a = marker b -> a = b.
Proof.
  intros E. pose proof (target_slot_marker a) as Ha.
  rewrite E, target_slot_marker in Ha. inversion Ha. lia.
Qed.

(** ** The assignment of a document of markers *)

Lemma auction_keys_preserves (R : auction_state -> Prop) :
  (forall key st st', auction_inv st -> R st -> update key st st' -> R st') ->
  forall keys st u st' u',
    auction_inv st -> R st -> auction_keys keys st u = (st', u') -> R st'.
Proof.
  intros HR. induction keys as [|key keys IH]; intros st u st' u' Hinv Hr H;
    simpl in H.
  - inversion H; subst. exact Hr.
  - destruct (auction_step key st u) as [st1 u1] eqn:Hstep.
    apply auction_step_spec in Hstep.
    destruct Hstep as [[-> ->]|[Hup ->]].
    + exact (IH _ _ _ _ Hinv Hr H).
    + apply (IH _ _ _ _ (update_inv _ _ _ Hinv Hup)
               (HR _ _ _ Hinv Hr Hup) H).
Qed.

Lemma auction_loop_preserves (R : auction_state -> Prop) :
  (forall key st st', auction_inv st -> R st -> update key st st' -> R st') ->
  forall fuel st st' n,
    auction_inv st -> R st -> auction_loop fuel st = Some (st', n) -> R st'.
Proof.
  intros HR. induction fuel as [|fuel IH]; intros st st' n Hinv Hr H;
    [discriminate|].
  simpl in H. destruct (auction_pass st) as [st1 [|]] eqn:Hpass.
  - destruct (auction_loop fuel st1) as [[s m]|] eqn:Hrun; [|discriminate].
    simpl in H. inversion H; subst.
    destruct (auction_pass_true _ _ Hinv Hpass) as (Hinv1 & _ & _).
    apply (IH _ _ m Hinv1); [|exact Hrun].
    unfold auction_pass in Hpass.
    exact (auction_keys_preserves R HR _ _ _ _ _ Hinv Hr Hpass).
  - inversion H; subst.
    destruct (auction_pass_false _ _ Hpass) as [-> _]. exact Hr.
Qed.

(** The answer ids never change. *)
Lemma update_keys (key : string) (st st' : auction_state) :
  update key st st' ->
  dict_keys (answer_id_to_predict_val st')
  = dict_keys (answer_id_to_predict_val st).
Proof.
  intros [text score rest Hkey Htext
         |text score rest score0 id0 Hkey Htext Hcmp Hne
         |text score rest score0 id0 tmp Hkey Htext Hcmp Hid]; simpl.
  - reflexivity.
  - apply dict_keys_set_present. exact (dict_get_keys _ _ _ Hkey).
  - apply dict_keys_set_present. exact (dict_get_keys _ _ _ Hid).
Qed.

Lemma initial_keys (entries : list doc_entry) (k : string) :
  In k (dict_keys (initial_predict_val entries)) ->
  exists e, In e entries /\ answer_id e = k.
Proof.
  unfold initial_predict_val.
  assert (G : forall d,
            In k (dict_keys (fold_left
              (fun d e => dict_set d (answer_id e) (val e)) entries d)) ->
            In k (dict_keys d) \/ exists e, In e entries /\ answer_id e = k).
  { induction entries as [|e entries IH]; intros d H; simpl in H; [left; exact H|].
    destruct (IH _ H) as [Hd|(e' & He' & Ee')].
    - destruct (in_dec string_dec (answer_id e) (dict_keys d)) as [Hin|Hn].
      + rewrite dict_keys_set_present in Hd by exact Hin. left. exact Hd.
      + rewrite dict_keys_set_absent in Hd by exact Hn.
        apply in_app_or in Hd. destruct Hd as [Hd|[<-|[]]]; [left; exact Hd|].
        right. exists e. split; [left|]; reflexivity.
    - right. exists e'. split; [right; exact He' | exact Ee']. }
  intros H. destruct (G [] H) as [[]|He]. exact He.
Qed.

Lemma write_back_spec (out : list Z) (k : string) (v : cands) :
  write_back out k v =
  match write_of (List.length out) k v with
  | Some (i, choice) => Py.set_nth out i choice
  | None => out
  end.
Proof.
  unfold write_back, write_of. destruct v as [|[best s] v]; [reflexivity|].
  destruct (target_slot best) as [slot|]; [|reflexivity].
  destruct (Py.int k) as [choice|]; [|reflexivity].
  unfold Py.store, resolve.
  destruct ((0 <=? slot) && (slot <? Z.of_nat (List.length out)));
    [reflexivity|].
  destruct ((slot <? 0) && (0 <=? slot + Z.of_nat (List.length out)));
    reflexivity.
Qed.

(** The output is the blank list with the stores applied in order. *)
Lemma output_writes (blanks : nat) (pv : list (string * cands)) :
  output_of blanks pv = apply_writes (writes blanks pv) (repeat (-1) blanks).
Proof.
  unfold output_of, apply_writes.
  assert (G : forall out, List.length out = blanks ->
            fold_left (fun out '(key, value_1) => write_back out key value_1)
              pv out
            = fold_left (fun out '(i, choice) => Py.set_nth out i choice)
                (writes blanks pv) out).
  { induction pv as [|[k v] pv IH]; intros out Hlen; simpl; [reflexivity|].
    rewrite write_back_spec, Hlen.
    destruct (write_of blanks k v) as [[i c]|]; simpl.
    - apply IH. rewrite set_nth_length. exact Hlen.
    - apply IH. exact Hlen. }
  apply G. apply repeat_length.
Qed.

Lemma writes_In (blanks : nat) (pv : list (string * cands)) (w : nat * Z) :
  In w (writes blanks pv) ->
  exists k v, In (k, v) pv /\ write_of blanks k v = Some w.
Proof.
  induction pv as [|[k v] pv IH]; simpl; [intros []|].
  destruct (write_of blanks k v) as [w0|] eqn:E.
  - intros [<-|Hin].
    + exists k, v. split; [left; reflexivity | exact E].
    + destruct (IH Hin) as (k' & v' & H' & E').
      exists k', v'. split; [right; exact H' | exact E'].
  - intros Hin. destruct (IH Hin) as (k' & v' & H' & E').
    exists k', v'. split; [right; exact H' | exact E'].
Qed.

(** A store made for a numeral key whose head is a marker: the slot is
    the blank number less one, the choice is the key's number. *)
Lemma write_of_marker (blanks : nat) (c n : nat) (s : Q) (rest : cands)
    (w : nat * Z) :
  (1 <= n)%nat ->
  write_of blanks (Py.str c) ((marker n, s) :: rest) = Some w ->
  w = ((n - 1)%nat, Z.of_nat c).
Proof.
  intros Hn. unfold write_of. rewrite target_slot_marker, int_str.
  unfold resolve.
  destruct ((0 <=? Z.of_nat n - 1) && (Z.of_nat n - 1 <? Z.of_nat blanks)).
  - simpl. intros E. inversion E. f_equal. lia.
  - destruct (Z.ltb_spec (Z.of_nat n - 1) 0); [lia|]. simpl. discriminate.
Qed.

Lemma write_of_entry (blanks : nat) (pv : list (string * cands))
    (k : string) (v : cands) (w : nat * Z) :
  (forall k v, In (k, v) pv -> exists c, k = Py.str c) ->
  texts_all (fun t => exists n, (1 <= n)%nat /\ t = marker n) pv ->
  In (k, v) pv -> write_of blanks k v = Some w ->
  exists c n s rest,
    k = Py.str c /\ v = (marker n, s) :: rest /\ (1 <= n)%nat /\
    w = ((n - 1)%nat, Z.of_nat c).
Proof.
  intros Hk Ht Hin Hw.
  destruct (Hk k v Hin) as [c ->].
  destruct v as [|[t s] rest]; [discriminate|].
  destruct (Ht _ _ t s Hin (or_introl eq_refl)) as (n & Hn & ->).
  exists c, n, s, rest. repeat split; auto.
  exact (write_of_marker blanks c n s rest w Hn Hw).
Qed.

(** With numeral keys, marker texts and pairwise different heads, no slot
    is stored twice and no choice is stored twice. *)
Lemma writes_NoDup (blanks : nat) (pv : list (string * cands)) :
  NoDup (dict_keys pv) ->
  (forall k v, In (k, v) pv -> exists c, k = Py.str c) ->
  texts_all (fun t => exists n, (1 <= n)%nat /\ t = marker n) pv ->
  (forall k1 v1 k2 v2 t1 s1 r1 t2 s2 r2,
     In (k1, v1) pv -> In (k2, v2) pv -> k1 <> k2 ->
     v1 = (t1, s1) :: r1 -> v2 = (t2, s2) :: r2 -> t1 <> t2) ->
  NoDup (map fst (writes blanks pv)) /\ NoDup (map snd (writes blanks pv)).
Proof.
  induction pv as [|[k v] pv IH]; intros Hnd Hk Ht Hheads; simpl.
  - split; constructor.
  - inversion Hnd as [|? ? Hnotin Hnd']; subst.
    assert (Hk' : forall k v, In (k, v) pv -> exists c, k = Py.str c)
      by (intros k0 v0 H0; apply (Hk k0 v0); right; exact H0).
    assert (Ht' : texts_all (fun t => exists n, (1 <= n)%nat /\ t = marker n) pv)
      by (intros k0 v0 t s H0; apply (Ht k0 v0 t s); right; exact H0).
    destruct (IH Hnd' Hk' Ht') as [IHf IHs].
    { intros k1 v1 k2 v2 t1 s1 r1 t2 s2 r2 H1 H2.
      apply Hheads; right; assumption. }
    destruct (write_of blanks k v) as [w|] eqn:Hw; [|split; assumption].
    destruct (write_of_entry blanks _ k v w Hk Ht (or_introl eq_refl) Hw)
      as (c & n & s & rest & -> & -> & Hn & ->).
    assert (Hother : forall w', In w' (writes blanks pv) ->
              fst w' <> (n - 1)%nat /\ snd w' <> Z.of_nat c).
    { intros w' Hw'. destruct (writes_In _ _ _ Hw') as (k' & v' & Hin' & Ew').
      destruct (write_of_entry blanks _ k' v' w' Hk' Ht' Hin' Ew')
        as (c' & n' & s' & rest' & -> & -> & Hn' & ->).
      assert (Hne : Py.str c <> Py.str c').
      { intros E. apply Hnotin. rewrite E.
        apply (in_map fst) in Hin'. exact Hin'. }
      simpl. split.
      - intros E. assert (n' = n) by lia. subst n'.
        apply (Hheads (Py.str c) ((marker n, s) :: rest)
                 (Py.str c') ((marker n, s') :: rest')
                 (marker n) s rest (marker n) s' rest');
          auto; [left; reflexivity | right; exact Hin'].
      - intros E. apply Hne. f_equal. lia. }
    simpl. split; constructor; auto.
    + intros Hin. apply in_map_iff in Hin. destruct Hin as (w' & E & Hw').
      exact (proj1 (Hother w' Hw') E).
    + intros Hin. apply in_map_iff in Hin. destruct Hin as (w' & E & Hw').
      exact (proj2 (Hother w' Hw') E).
Qed.

(** For a document whose answer ids are numerals and whose candidate
    texts are markers, the auction returns and the final loop stores into
    pairwise different slots the indices of pairwise different choices. *)
Theorem marker_document_assignment (entries : list doc_entry) :
  marker_document entries ->
  exists st passes,
    let total := total_candidates (initial_predict_val entries) in
    let ws := writes (blanks_of entries) (answer_id_to_predict_val st) in
    (forall extra,
       auction_loop (S total + extra) (initial_state entries)
       = Some (st, passes)) /\
    (forall extra,
       predict_document (S total + extra) entries
       = Some (apply_writes ws (repeat (-1) (blanks_of entries)))) /\
    NoDup (map fst ws) /\ NoDup (map snd ws).
Proof.
  intros [Hids Htexts].
  set (total := total_candidates (initial_predict_val entries)).
  destruct (auction_loop_returns (S total) (initial_state entries)
              (initial_state_inv entries))
    as (st & n & Hrun & _ & Hinv & Hst & Hkeep).
  { rewrite initial_measure. unfold total. lia. }
  exists st, n. cbv zeta.
  assert (Hfuel : forall extra,
            auction_loop (S total + extra) (initial_state entries)
            = Some (st, n)).
  { intros extra. apply (auction_loop_more_fuel (S total)); [exact Hrun | lia]. }
  split; [exact Hfuel|]. split.
  - intros extra. unfold predict_document. rewrite Hfuel.
    rewrite output_writes. reflexivity.
  - assert (Hkeys : dict_keys (answer_id_to_predict_val st)
                    = dict_keys (initial_predict_val entries)).
    { apply (auction_loop_preserves
               (fun s => dict_keys (answer_id_to_predict_val s)
                         = dict_keys (initial_predict_val entries)))
        with (fuel := S total) (st := initial_state entries) (n := n);
        [|apply initial_state_inv | reflexivity | exact Hrun].
      intros key s s' _ Hs Hup. rewrite (update_keys _ _ _ Hup). exact Hs. }
    destruct Hinv as [Hnd Hhead].
    apply writes_NoDup.
    + exact Hnd.
    + intros k v Hin. apply (in_map fst) in Hin. simpl in Hin.
      fold (dict_keys (answer_id_to_predict_val st)) in Hin.
      rewrite Hkeys in Hin. apply initial_keys in Hin.
      destruct Hin as (e & He & <-). exact (Hids e He).
    + apply Hkeep. apply initial_texts. exact Htexts.
    + intros k1 v1 k2 v2 t1 s1 r1 t2 s2 r2 H1 H2 Hne -> ->.
      apply (stable_heads_distinct st k1 k2 t1 s1 r1 t2 s2 r2
               (conj Hnd Hhead) Hst Hne);
        apply In_dict_get; assumption.
Qed.

Lemma marker_document_assignment_witness :
  exists st passes,
    let total := total_candidates (initial_predict_val scenario) in
    let ws := writes (blanks_of scenario) (answer_id_to_predict_val st) in
    (forall extra,
       auction_loop (S total + extra) (initial_state scenario)
       = Some (st, passes)) /\
    (forall extra,
       predict_document (S total + extra) scenario
       = Some (apply_writes ws (repeat (-1) (blanks_of scenario)))) /\
    NoDup (map fst ws) /\ NoDup (map snd ws).
Proof.
  apply (marker_document_assignment scenario). split.
  - intros e [<-|[<-|[<-|[]]]];
      [exists 0%nat | exists 1%nat | exists 2%nat]; reflexivity.
  - intros e t s [<-|[<-|[<-|[]]]] [E|[E|[]]]; inversion E;
      first [ exists 1%nat; split; [lia | reflexivity]
            | exists 2%nat; split; [lia | reflexivity]
            | exists 3%nat; split; [lia | reflexivity] ].
Defined.

(** * Further properties *)

(** ** The state the auction ends in *)

Lemma auction_loop_result (fuel : nat) :
  forall st st' n,
    auction_inv st -> auction_loop fuel st = Some (st', n) ->
    auction_inv st' /\ stable st'.
Proof.
  induction fuel as [|fuel IH]; intros st st' n Hinv H; [discriminate|].
  simpl in H. destruct (auction_pass st) as [st1 [|]] eqn:Hpass.
  - destruct (auction_loop fuel st1) as [[s m]|] eqn:Hrun; [|discriminate].
    simpl in H. inversion H; subst.
    destruct (auction_pass_true _ _ Hinv Hpass) as (Hinv1 & _ & _).
    exact (IH _ _ m Hinv1 Hrun).
  - inversion H; subst.
    destruct (auction_pass_false _ _ Hpass) as [-> Hst].
    split; assumption.
Qed.

(** When the loop leaves, every answer id that still has candidates is
    recorded as the holder of the text at the head of its list, with the
    score of that head; so no two answer ids end with the same text at the
    head. *)
Theorem auction_final_heads (entries : list doc_entry) (fuel : nat)
    (st : auction_state) (n : nat) :
  auction_loop fuel (initial_state entries) = Some (st, n) ->
  (forall key text score rest,
     dict_get (answer_id_to_predict_val st) key = Some ((text, score) :: rest) ->
     dict_get (answer_text_dict st) text = Some (score, key)) /\
  (forall k1 k2 t1 s1 r1 t2 s2 r2,
     k1 <> k2 ->
     dict_get (answer_id_to_predict_val st) k1 = Some ((t1, s1) :: r1) ->
     dict_get (answer_id_to_predict_val st) k2 = Some ((t2, s2) :: r2) ->
     t1 <> t2).
Proof.
  intros H.
  destruct (auction_loop_result _ _ _ _ (initial_state_inv entries) H)
    as [Hinv Hst].
  split.
  - intros key text score rest Hkey.
    destruct (stable_holder _ _ _ _ _ Hinv Hst Hkey) as [s0 Hs0].
    destruct Hinv as [_ Hhead]. destruct (Hhead _ _ _ Hs0) as [r Hr].
    rewrite Hkey in Hr. inversion Hr; subst. exact Hs0.
  - intros k1 k2 t1 s1 r1 t2 s2 r2 Hne H1 H2.
    exact (stable_heads_distinct st k1 k2 t1 s1 r1 t2 s2 r2 Hinv Hst Hne H1 H2).
Qed.

Lemma auction_final_heads_witness :
  exists st,
    auction_loop 3 (initial_state scenario) = Some (st, 3%nat) /\
    (forall key text score rest,
       dict_get (answer_id_to_predict_val st) key
       = Some ((text, score) :: rest) ->
       dict_get (answer_text_dict st) text = Some (score, key)) /\
    (forall k1 k2 t1 s1 r1 t2 s2 r2,
       k1 <> k2 ->
       dict_get (answer_id_to_predict_val st) k1 = Some ((t1, s1) :: r1) ->
       dict_get (answer_id_to_predict_val st) k2 = Some ((t2, s2) :: r2) ->
       t1 <> t2).
Proof.
  eexists. split; [vm_compute; reflexivity|].
  apply (auction_final_heads scenario 3 _ 3). vm_compute. reflexivity.
Defined.

(** ** Lists only shrink, and only to a bid at least as high *)

Lemma outbid_app atd (a b : cands) :
  outbid atd a -> outbid atd b -> outbid atd (a ++ b).
Proof.
  intros Ha Hb t s Hin. apply in_app_or in Hin.
  destruct Hin; [apply Ha | apply Hb]; assumption.
Qed.

Lemma update_shrink (pv0 : list (string * cands)) (key : string)
    (st st' : auction_state) :
  auction_inv st -> shrink_inv pv0 st -> update key st st' ->
  shrink_inv pv0 st'.
Proof.
  intros Hinv Hsh Hup.
  destruct Hup as [text score rest Hkey Htext
                  |text score rest score0 id0 Hkey Htext Hcmp Hne
                  |text score rest score0 id0 tmp Hkey Htext Hcmp Hid];
    intros k v; simpl.
  - (* granted: a text nobody held *)
    intros Hk. destruct (Hsh k v Hk) as (dropped & H0 & Hout).
    exists dropped. split; [exact H0|].
    intros t s Hin. destruct (Hout t s Hin) as (s' & id & Hget & Hle).
    exists s', id. split; [|exact Hle].
    rewrite dict_get_set_neq; [exact Hget|]. intros ->. congruence.
  - (* lost: the head of [key] goes to the dropped part *)
    destruct (string_dec k key) as [->|Hk].
    + rewrite dict_get_set_eq. intros E. inversion E; subst v.
      destruct (Hsh key _ Hkey) as (dropped & H0 & Hout).
      exists (dropped ++ [(text, score)]). split.
      * rewrite <- app_assoc. exact H0.
      * apply outbid_app; [exact Hout|].
        intros t s [E'|[]]. inversion E'; subst.
        exists score0, id0. split; [exact Htext | apply Qltb_false, Hcmp].
    + rewrite dict_get_set_neq by exact Hk. apply Hsh.
  - (* displaced: the head of the holder goes to the dropped part *)
    destruct (displaced_holder st key text score rest score0 id0
                Hinv Hkey Htext Hcmp) as [Hne [rest0 Hid0]].
    rewrite Hid0 in Hid. inversion Hid; subst tmp. cbn [Py.tail1 tl].
    assert (Hlt : (score0 < score)%Q) by (apply Qltb_true, Hcmp).
    assert (Hraise : forall dropped,
              outbid (answer_text_dict st) dropped ->
              outbid (dict_set (answer_text_dict st) text (score, key))
                dropped).
    { intros dropped Hout t s Hin.
      destruct (Hout t s Hin) as (s' & id & Hget & Hle).
      destruct (string_dec t text) as [->|Ht].
      - exists score, key. split; [apply dict_get_set_eq|].
        rewrite Htext in Hget. inversion Hget; subst.
        apply Qlt_le_weak. eapply Qle_lt_trans; eassumption.
      - exists s', id. split; [|exact Hle].
        rewrite dict_get_set_neq by exact Ht. exact Hget. }
    destruct (string_dec k id0) as [->|Hk].
    + rewrite dict_get_set_eq. intros E. inversion E; subst v.
      destruct (Hsh id0 _ Hid0) as (dropped & H0 & Hout).
      exists (dropped ++ [(text, score0)]). split.
      * rewrite <- app_assoc. exact H0.
      * apply outbid_app; [apply Hraise, Hout|].
        intros t s [E'|[]]. inversion E'; subst.
        exists score, key. split; [apply dict_get_set_eq|].
        apply Qlt_le_weak. exact Hlt.
    + rewrite dict_get_set_neq by exact Hk. intros Hget.
      destruct (Hsh k v Hget) as (dropped & H0 & Hout).
      exists dropped. split; [exact H0 | apply Hraise, Hout].
Qed.

(** The answer ids and their order never change; the list an answer id
    ends with is what is left of its first list after dropping candidates
    from the front; and every dropped candidate names a text that in the
    end is recorded with a score at least as high as the dropped bid. *)
Theorem auction_lists_shrink (entries : list doc_entry) (fuel : nat)
    (st : auction_state) (n : nat) :
  auction_loop fuel (initial_state entries) = Some (st, n) ->
  dict_keys (answer_id_to_predict_val st)
  = dict_keys (initial_predict_val entries) /\
  forall key value,
    dict_get (answer_id_to_predict_val st) key = Some value ->
    exists dropped,
      dict_get (initial_predict_val entries) key = Some (dropped ++ value) /\
      outbid (answer_text_dict st) dropped.
Proof.
  intros H. split.
  - apply (auction_loop_preserves
             (fun s => dict_keys (answer_id_to_predict_val s)
                       = dict_keys (initial_predict_val entries)))
      with (fuel := fuel) (st := initial_state entries) (n := n);
      [|apply initial_state_inv | reflexivity | exact H].
    intros key s s' _ Hs Hup. rewrite (update_keys _ _ _ Hup). exact Hs.
  - apply (auction_loop_preserves (shrink_inv (initial_predict_val entries)))
      with (fuel := fuel) (st := initial_state entries) (n := n);
      [|apply initial_state_inv | | exact H].
    + intros key s s' Hinv Hs Hup. exact (update_shrink _ _ _ _ Hinv Hs Hup).
    + intros key value Hget. exists []. split; [exact Hget|].
      intros t s [].
Qed.

Lemma auction_lists_shrink_witness :
  exists st,
    auction_loop 3 (initial_state scenario) = Some (st, 3%nat) /\
    dict_keys (answer_id_to_predict_val st)
    = dict_keys (initial_predict_val scenario) /\
    forall key value,
      dict_get (answer_id_to_predict_val st) key = Some value ->
      exists dropped,
        dict_get (initial_predict_val scenario) key = Some (dropped ++ value) /\
        outbid (answer_text_dict st) dropped.
Proof.
  eexists. split; [vm_compute; reflexivity|].
  apply (auction_lists_shrink scenario 3 _ 3). vm_compute. reflexivity.
Defined.

(** ** The shape of the output *)





(** ** The window loop for every stride and capacity of at least one *)

Lemma doc_spans_from_shape (L C doc_stride : Z) :
  1 <= doc_stride -> 1 <= C ->
  forall fuel a,
    0 <= a < L -> (Z.to_nat (L - a) <= fuel)%nat ->
    exists rest,
      doc_spans_from fuel L C doc_stride a
      = Some (mkDocSpan a (Z.min C (L - a)) :: rest) /\
      (forall d, In d (mkDocSpan a (Z.min C (L - a)) :: rest) ->
         length d = Z.min C (L - start d) /\ 1 <= length d) /\
      (forall p, a <= p <= L - 1 ->
         exists d, In d (mkDocSpan a (Z.min C (L - a)) :: rest) /\ in_span p d) /\
      (forall d p, In d (mkDocSpan a (Z.min C (L - a)) :: rest) ->
         in_span p d -> a <= p <= L - 1) /\
      span_end (last (mkDocSpan a (Z.min C (L - a)) :: rest) (mkDocSpan 0 0))
      = L - 1 /\
      evenly_spaced C doc_stride (mkDocSpan a (Z.min C (L - a)) :: rest).
Proof.
  intros HS HC. induction fuel as [|fuel IH]; intros a Ha Hfuel; [lia|].
  simpl. destruct (Z.ltb_spec a L) as [_|]; [|lia].
  assert (Hlen : (if L - a >? C then C else L - a) = Z.min C (L - a)).
  { destruct (Z.gtb_spec (L - a) C); lia. }
  rewrite Hlen. set (sp := mkDocSpan a (Z.min C (L - a))).
  destruct (Z.eqb_spec (a + Z.min C (L - a)) L) as [Heq|Hne].
  - exists []. split; [reflexivity|].
    split; [|split; [|split; [|split]]].
    + intros d [<-|[]]. simpl. lia.
    + intros p Hp. exists sp. split; [left; reflexivity|].
      unfold in_span, span_end; simpl. lia.
    + intros d p [<-|[]] Hp. unfold in_span, span_end in Hp; simpl in Hp. lia.
    + unfold span_end; simpl. lia.
    + intros [|i] d d' H1 H2; simpl in H2; [discriminate|].
      destruct i; discriminate.
  - assert (Hlong : Z.min C (L - a) = C) by lia.
    assert (Hnext : 0 <= a + Z.min C doc_stride < L) by lia.
    replace (Z.min (Z.min C (L - a)) doc_stride) with (Z.min C doc_stride)
      by lia.
    destruct (IH (a + Z.min C doc_stride) Hnext)
      as (rest & Hrun & Hl & Hc & Hin & Hlast & Hsp); [lia|].
    rewrite Hrun. simpl.
    set (sp' := mkDocSpan (a + Z.min C doc_stride)
                  (Z.min C (L - (a + Z.min C doc_stride)))) in *.
    exists (sp' :: rest). split; [reflexivity|].
    split; [|split; [|split; [|split]]].
    + intros d [<-|Hd]; [simpl; lia | apply Hl, Hd].
    + intros p Hp.
      destruct (Z_lt_ge_dec p (a + Z.min C doc_stride)) as [Hlt|Hge].
      * exists sp. split; [left; reflexivity|].
        unfold in_span, span_end; simpl. lia.
      * destruct (Hc p) as (d & Hd & Hpd); [lia|].
        exists d. split; [right; exact Hd | exact Hpd].
    + intros d p [<-|Hd] Hp.
      * unfold in_span, span_end in Hp; simpl in Hp. lia.
      * pose proof (Hin d p Hd Hp). lia.
    + exact Hlast.
    + intros [|i] d d' H1 H2.
      * simpl in H1, H2. inversion H1; inversion H2; subst.
        simpl. split; [exact Hlong | reflexivity].
      * simpl in H1, H2. exact (Hsp i d d' H1 H2).
Qed.

Lemma doc_spans_single (L C doc_stride : Z) (fuel : nat) :
  0 < L <= C ->
  doc_spans_from (S fuel) L C doc_stride 0 = Some [mkDocSpan 0 L].
Proof.
  intros H. simpl. destruct (Z.ltb_spec 0 L) as [_|]; [|lia].
  rewrite Z.sub_0_r.
  destruct (Z.gtb_spec L C) as [|_]; [lia|].
  rewrite Z.eqb_refl. reflexivity.
Qed.

(** For every stride and capacity of at least one - a stride at or above
    the capacity and a document shorter than the capacity included - the
    window loop returns.  An empty document has no window; a document of
    at most [C] tokens has the single window [(0, L)]; in general the first
    window starts at 0, every window takes [min(C, L - start) >= 1] tokens,
    each window but the last takes [C] tokens and is followed
    [min(C, doc_stride)] tokens later, the windows cover [0 .. L-1] and
    nothing else, and the last one ends at [L-1]. *)
Theorem doc_spans_general (L C doc_stride : Z) (extra : nat) :
  1 <= doc_stride -> 1 <= C -> 0 <= L ->
  exists spans,
    doc_spans (S (Z.to_nat L) + extra) L C doc_stride = Some spans /\
    (L = 0 -> spans = []) /\
    (0 < L <= C -> spans = [mkDocSpan 0 L]) /\
    (0 < L -> exists rest, spans = mkDocSpan 0 (Z.min C L) :: rest) /\
    (forall d, In d spans ->
       length d = Z.min C (L - start d) /\ 1 <= length d) /\
    covers L spans /\
    (0 < L -> span_end (last spans (mkDocSpan 0 0)) = L - 1) /\
    evenly_spaced C doc_stride spans.
Proof.
  intros HS HC HL. unfold doc_spans.
  destruct (Z.eq_dec L 0) as [->|Hpos].
  - exists []. split; [reflexivity|].
    split; [reflexivity|]. split; [lia|]. split; [lia|].
    split; [intros d []|]. split; [|split; [lia|]].
    + split; [intros p Hp; lia | intros d p []].
    + intros [|i] d d' H; discriminate.
  - destruct (doc_spans_from_shape L C doc_stride HS HC (Z.to_nat L) 0)
      as (rest & Hrun & Hl & Hc & Hin & Hlast & Hsp); [lia | lia |].
    apply (doc_spans_from_more_fuel _ _ _ _ (S (Z.to_nat L) + extra)) in Hrun;
      [|lia].
    rewrite Z.sub_0_r in *.
    exists (mkDocSpan 0 (Z.min C L) :: rest).
    split; [exact Hrun|]. split; [lia|]. split.
    { intros HLC.
      pose proof (doc_spans_single L C doc_stride
                    (Z.to_nat L + extra) HLC) as Hone.
      change (S (Z.to_nat L) + extra)%nat
        with (S (Z.to_nat L + extra)) in Hrun.
      rewrite Hone in Hrun. injection Hrun as E1 E2.
      rewrite <- E1, <- E2. reflexivity. }
    split; [intros _; exists rest; reflexivity|].
    split; [exact Hl|]. split; [|split; [intros _; exact Hlast | exact Hsp]].
    split; [intros p Hp; apply Hc; lia | exact Hin].
Qed.

Lemma doc_spans_general_witness :
  exists spans,
    doc_spans (S (Z.to_nat 7) + 0) 7 3 5 = Some spans /\
    (7 = 0 -> spans = []) /\
    (0 < 7 <= 3 -> spans = [mkDocSpan 0 7]) /\
    (0 < 7 -> exists rest, spans = mkDocSpan 0 (Z.min 3 7) :: rest) /\
    (forall d, In d spans ->
       length d = Z.min 3 (7 - start d) /\ 1 <= length d) /\
    covers 7 spans /\
    (0 < 7 -> span_end (last spans (mkDocSpan 0 0)) = 7 - 1) /\
    evenly_spaced 3 5 spans.
Proof.
  apply (doc_spans_general 7 3 5 0); lia.
Defined.

(** When the query leaves no room for the document ([C <= 0]) and the
    document is not empty, the window loop never leaves, whatever the
    stride: the offset never grows and a window never reaches the end. *)
Theorem doc_spans_no_room (L C doc_stride : Z) (fuel : nat) :
  C <= 0 -> 0 < L -> doc_spans fuel L C doc_stride = None.
Proof.
  intros HC HL. unfold doc_spans.
  assert (G : forall a, a <= 0 -> doc_spans_from fuel L C doc_stride a = None).
  { induction fuel as [|fuel IH]; intros a Ha; [reflexivity|].
    simpl. destruct (Z.ltb_spec a L) as [_|]; [|lia].
    destruct (Z.gtb_spec (L - a) C) as [_|]; [|lia].
    destruct (Z.eqb_spec (a + C) L) as [|_]; [lia|].
    rewrite IH by lia. reflexivity. }
  apply G. lia.
Qed.

Lemma doc_spans_no_room_witness : doc_spans 100 5 0 2 = None.
Proof.
  apply (doc_spans_no_room 5 0 2 100); lia.
Defined.

(** ** Owners of the tokens of a document *)

Lemma best_span_index_spec (spans : list DocSpan) (p : Z) :
  match best_span_index spans p with
  | Some i => exists d, nth_error spans i = Some d /\ in_span p d
  | None => forall d, In d spans -> ~ in_span p d
  end.
Proof.
  pose proof (best_span_loop_inv p spans [] None) as Hinv. simpl in Hinv.
  assert (H0 : best_inv p [] None) by (intros [|j] d H; discriminate).
  specialize (Hinv H0). unfold best_span_index.
  destruct (best_span_loop spans 0 p None) as [[s i]|]; simpl in *.
  - destruct Hinv as (d & Hn & Hin & _). exists d. split; assumption.
  - intros d Hd. apply In_nth_error in Hd. destruct Hd as [j Hj].
    exact (Hinv j d Hj).
Qed.

(** A position that lies in no window has no owner: the check answers
    False for every window index. *)
Theorem max_context_outside (spans : list DocSpan) (p : Z) (j : nat) :
  (forall d, In d spans -> ~ in_span p d) ->
  _check_is_max_context spans j p = false.
Proof.
  intros Hout. unfold _check_is_max_context.
  destruct (best_span_index spans p) as [i|] eqn:E; [|reflexivity].
  pose proof (best_span_index_spec spans p) as H. rewrite E in H.
  destruct H as (d & Hn & Hin). exfalso.
  exact (Hout d (nth_error_In _ _ Hn) Hin).
Qed.

Lemma max_context_outside_witness :
  _check_is_max_context [mkDocSpan 0 4; mkDocSpan 2 4] 1 9 = false.
Proof.
  apply (max_context_outside [mkDocSpan 0 4; mkDocSpan 2 4] 9 1).
  intros d [<-|[<-|[]]]; unfold in_span, span_end; simpl; lia.
Defined.

(** The check never answers True for an index past the last window or for
    a window that does not contain the position. *)
Theorem max_context_contains (spans : list DocSpan) (j : nat) (p : Z) :
  _check_is_max_context spans j p = true ->
  exists d, nth_error spans j = Some d /\ in_span p d.
Proof.
  unfold _check_is_max_context.
  pose proof (best_span_index_spec spans p) as H.
  destruct (best_span_index spans p) as [i|]; [|discriminate].
  intros E. apply Nat.eqb_eq in E. subst j. exact H.
Qed.

Lemma max_context_contains_witness :
  exists d, nth_error [mkDocSpan 0 4; mkDocSpan 2 4] 1 = Some d /\ in_span 4 d.
Proof.
  apply (max_context_contains [mkDocSpan 0 4; mkDocSpan 2 4] 1 4).
  vm_compute. reflexivity.
Defined.

Lemma no_owner_outside (spans : list DocSpan) (p : Z) (j : nat) :
  (forall d, In d spans -> ~ in_span p d) ->
  _check_is_max_context spans j p = false.
Proof.
  intros Hout. unfold _check_is_max_context.
  pose proof (best_span_index_spec spans p) as H.
  destruct (best_span_index spans p) as [i|]; [|reflexivity].
  destruct H as (d & Hn & Hin). exfalso.
  exact (Hout d (nth_error_In _ _ Hn) Hin).
Qed.

Lemma doc_spans_cover (L C doc_stride : Z) (extra : nat) :
  1 <= doc_stride -> 1 <= C -> 0 <= L ->
  exists spans,
    doc_spans (S (Z.to_nat L) + extra) L C doc_stride = Some spans /\
    covers L spans.
Proof.
  intros HS HC HL. unfold doc_spans.
  destruct (Z.eq_dec L 0) as [->|Hpos].
  - exists []. split; [reflexivity|].
    split; [intros p Hp; lia | intros d p []].
  - destruct (doc_spans_from_shape L C doc_stride HS HC (Z.to_nat L) 0)
      as (rest & Hrun & _ & Hc & Hin & _); [lia | lia |].
    apply (doc_spans_from_more_fuel _ _ _ _ (S (Z.to_nat L) + extra)) in Hrun;
      [|lia].
    eexists. split; [exact Hrun|].
    split; [intros p Hp; apply Hc; lia | exact Hin].
Qed.

(** Windows and ownership together: for a stride and a capacity of at
    least one, every token position of the document is owned by exactly
    one of the generated windows, and no position outside the document is
    owned by any. *)
Theorem every_token_has_one_owner (L C doc_stride : Z) (extra : nat) :
  1 <= doc_stride -> 1 <= C -> 0 <= L ->
  exists spans,
    doc_spans (S (Z.to_nat L) + extra) L C doc_stride = Some spans /\
    (forall p, 0 <= p < L ->
       exists i, forall j, _check_is_max_context spans j p = true <-> j = i) /\
    (forall p j, p < 0 \/ L <= p -> _check_is_max_context spans j p = false).
Proof.
  intros HS HC HL.
  destruct (doc_spans_cover L C doc_stride extra HS HC HL)
    as (spans & Hrun & [Hcov Hin]).
  exists spans. split; [exact Hrun|]. split.
  - intros p Hp. destruct (Hcov p) as (d & Hd & Hpd); [lia|].
    unfold _check_is_max_context.
    pose proof (best_span_index_spec spans p) as H.
    destruct (best_span_index spans p) as [i|].
    + exists i. intros j. apply Nat.eqb_eq.
    + exfalso. exact (H d Hd Hpd).
  - intros p j Hp. apply no_owner_outside.
    intros d Hd Hpd. pose proof (Hin d p Hd Hpd). lia.
Qed.

Lemma every_token_has_one_owner_witness :
  exists spans,
    doc_spans (S (Z.to_nat 10) + 0) 10 4 2 = Some spans /\
    (forall p, 0 <= p < 10 ->
       exists i, forall j, _check_is_max_context spans j p = true <-> j = i) /\
    (forall p j, p < 0 \/ 10 <= p -> _check_is_max_context spans j p = false).
Proof.
  apply (every_token_has_one_owner 10 4 2 0); lia.
Defined.

(** ** The layout of a feature *)

Lemma sequence_Some {A} (xs : list (option A)) (ys : list A) :
  sequence xs = Some ys -> xs = map Some ys.
Proof.
  revert ys. induction xs as [|[x|] xs IH]; intros ys H; simpl in H.
  - inversion H. reflexivity.
  - destruct (sequence xs) as [zs|]; [|discriminate].
    simpl in H. inversion H. simpl. f_equal. apply IH. reflexivity.
  - discriminate.
Qed.

Lemma sequence_length {A} (xs : list (option A)) (ys : list A) :
  sequence xs = Some ys -> List.length ys = List.length xs.
Proof.
  intros H. apply sequence_Some in H. subst xs. rewrite length_map.
  reflexivity.
Qed.

(** A kept feature, field by field. *)
Lemma span_feature_Kept_fields vocab is_training max_seq_length ex
    query_tokens tok_to_orig_index all_doc_tokens tok_position spans
    uid ex_index span_index doc_span f :
  span_feature vocab is_training max_seq_length ex query_tokens
    tok_to_orig_index all_doc_tokens tok_position spans uid ex_index
    span_index doc_span = Kept f ->
  let head_tokens := "[CLS]"%string :: query_tokens ++ ["[SEP]"%string] in
  let idxs := map (fun i => start doc_span + i) (range (length doc_span)) in
  let keys := map (fun i => len head_tokens + i) (range (length doc_span)) in
  exists origs window ids,
    map (Py.index tok_to_orig_index) idxs = map Some origs /\
    map (Py.index all_doc_tokens) idxs = map Some window /\
    map vocab (head_tokens ++ window ++ ["[SEP]"%string]) = map Some ids /\
    len (pad ids max_seq_length) = max_seq_length /\
    unique_id f = uid /\ example_index f = ex_index /\
    doc_span_index f = span_index /\
    tokens f = head_tokens ++ window ++ ["[SEP]"%string] /\
    token_to_orig_map f = combine keys origs /\
    token_is_max_context f
    = combine keys (map (_check_is_max_context spans span_index) idxs) /\
    input_ids f = pad ids max_seq_length /\
    input_mask f = pad (map (fun _ => 1) ids) max_seq_length /\
    segment_ids f
    = pad (map (fun _ => 0) head_tokens ++ map (fun _ => 1) window ++ [1])
        max_seq_length /\
    len (answer_position_mask f) = max_seq_length.
Proof.
  unfold span_feature.
  destruct (sequence (map (Py.index tok_to_orig_index) _)) as [origs|] eqn:Ho;
    [|discriminate].
  destruct (sequence (map (Py.index all_doc_tokens) _)) as [window|] eqn:Hw;
    [|discriminate].
  destruct (mask_loop _ 0 _) as [mask|] eqn:Hmask; [|discriminate].
  destruct (sequence (map vocab _)) as [ids|] eqn:Hi; [|discriminate].
  destruct (Z.eqb_spec (len (pad ids max_seq_length)) max_seq_length)
    as [Hpad|]; [|discriminate].
  destruct (Z.eqb_spec (len mask) max_seq_length) as [Hlen|]; [|discriminate].
  simpl andb. cbv iota.
  intros H. cbv zeta.
  exists origs, window, ids.
  apply sequence_Some in Ho, Hw, Hi.
  split; [exact Ho|]. split; [exact Hw|]. split; [exact Hi|].
  split; [exact Hpad|].
  destruct is_training.
  - destruct (position ex) as [ex_pos|]; [|discriminate].
    destruct tok_position as [tok_pos|]; [|discriminate].
    destruct ((ex_pos <? start doc_span)
              || (ex_pos >? start doc_span + length doc_span - 1));
      [discriminate|].
    inversion H. simpl. repeat split; auto.
  - inversion H. simpl. repeat split; auto.
Qed.

(** ** Where a feature comes from *)

Lemma span_loop_origin vocab is_training max_seq_length ex query_tokens
    tok_to_orig_index all_doc_tokens tok_position spans ex_index f :
  forall todo uid span_index fs u,
    span_loop vocab is_training max_seq_length ex query_tokens
      tok_to_orig_index all_doc_tokens tok_position spans uid ex_index
      span_index todo = Some (fs, u) ->
    In f fs ->
    exists uid' k doc_span,
      nth_error todo k = Some doc_span /\
      span_feature vocab is_training max_seq_length ex query_tokens
        tok_to_orig_index all_doc_tokens tok_position spans uid' ex_index
        (span_index + k) doc_span = Kept f.
Proof.
  induction todo as [|d rest IH]; intros uid si fs u H Hin; simpl in H.
  - inversion H; subst. destruct Hin.
  - destruct (span_feature _ _ _ _ _ _ _ _ _ uid ex_index si d) as [| |g] eqn:E.
    + discriminate.
    + destruct (IH _ _ _ _ H Hin) as (uid' & k & d' & Hd & Hk).
      exists uid', (S k), d'. split; [exact Hd|].
      replace (si + S k)%nat with (S si + k)%nat by lia. exact Hk.
    + destruct (span_loop _ _ _ _ _ _ _ _ _ (uid + 1) ex_index (S si) rest)
        as [[fs' u']|] eqn:Hrest; [|discriminate].
      simpl in H. inversion H; subst.
      destruct Hin as [<-|Hin].
      * exists uid, 0%nat, d. split; [reflexivity|].
        rewrite Nat.add_0_r. exact E.
      * destruct (IH _ _ _ _ Hrest Hin) as (uid' & k & d' & Hd & Hk).
        exists uid', (S k), d'. split; [exact Hd|].
        replace (si + S k)%nat with (S si + k)%nat by lia. exact Hk.
Qed.

(** Every feature of the result was built from one example of the input
    and one window of that example: with the example's query tokens, the
    index maps and sub-tokens of its document, and the windows generated
    for it. *)
Lemma examples_loop_origin tokenize vocab fuel is_training max_seq_length
    doc_stride max_query_length f :
  forall examples uid ex_index fs,
    examples_loop tokenize vocab fuel is_training max_seq_length doc_stride
      max_query_length uid ex_index examples = Some fs ->
    In f fs ->
    exists ex j o2t t2o all tp spans uid' k doc_span,
      nth_error examples j = Some ex /\
      split_doc tokenize (doc_tokens ex) 0 0 = (o2t, t2o, all) /\
      doc_spans fuel (len all)
        (max_tokens_for_doc max_seq_length
           (len (query_tokens_of tokenize (question_text ex)
                   max_query_length)))
        doc_stride = Some spans /\
      (is_training = true ->
       exists p, position ex = Some p /\ Py.index o2t p = Some tp) /\
      nth_error spans k = Some doc_span /\
      span_feature vocab is_training max_seq_length ex
        (query_tokens_of tokenize (question_text ex) max_query_length)
        t2o all (if is_training then Some tp else None) spans uid'
        (ex_index + j) k doc_span = Kept f.
Proof.
  induction examples as [|ex rest IH]; intros uid ei fs H Hin; simpl in H.
  - inversion H; subst. destruct Hin.
  - destruct (example_features _ _ _ _ _ _ _ uid ei ex) as [[fs1 uid1]|] eqn:E;
      [|discriminate].
    destruct (examples_loop _ _ _ _ _ _ _ uid1 (S ei) rest) as [fs2|] eqn:E2;
      [|discriminate].
    simpl in H. inversion H; subst. apply in_app_or in Hin.
    destruct Hin as [Hin|Hin].
    + unfold example_features in E.
      destruct (split_doc tokenize (doc_tokens ex) 0 0) as [[o2t t2o] all]
        eqn:Hsplit.
      destruct is_training.
      * destruct (position ex) as [p|] eqn:Hp; [|simpl in E; discriminate].
        destruct (Py.index o2t p) as [tp|] eqn:Htp;
          [|simpl in E; discriminate].
        simpl in E.
        destruct (doc_spans _ _ _ _) as [spans|] eqn:Hspans; [|discriminate].
        destruct (span_loop_origin _ _ _ _ _ _ _ _ _ _ _ _ _ _ _ _ E Hin)
          as (uid' & k & d' & Hd & Hk).
        exists ex, 0%nat, o2t, t2o, all, tp, spans, uid', k, d'.
        rewrite Nat.add_0_r.
        repeat split; auto. exists p. split; [exact Hp | exact Htp].
      * simpl in E.
        destruct (doc_spans _ _ _ _) as [spans|] eqn:Hspans; [|discriminate].
        destruct (span_loop_origin _ _ _ _ _ _ _ _ _ _ _ _ _ _ _ _ E Hin)
          as (uid' & k & d' & Hd & Hk).
        exists ex, 0%nat, o2t, t2o, all, 0, spans, uid', k, d'.
        rewrite Nat.add_0_r.
        repeat split; auto. discriminate.
    + destruct (IH _ _ _ E2 Hin)
        as (ex' & j & o2t & t2o & all & tp & spans & uid' & k & d'
            & Hex & Hs & Hsp & Htp & Hd & Hk).
      exists ex', (S j), o2t, t2o, all, tp, spans, uid', k, d'.
      replace (ei + S j)%nat with (S ei + j)%nat by lia.
      repeat split; auto.
Qed.

(** ** The index maps between document tokens and sub-tokens *)

Lemma subs_before_S tokenize (tok : string) (rest : list string) (k : nat) :
  subs_before tokenize (tok :: rest) (S k)
  = (List.length (sub_tokens_of tokenize tok)
     + subs_before tokenize rest k)%nat.
Proof. unfold subs_before. simpl. rewrite length_app. reflexivity. Qed.

Lemma split_doc_spec tokenize (doc : list string) :
  forall i n,
    let '(o2t, t2o, all) := split_doc tokenize doc i n in
    all = List.concat (map (sub_tokens_of tokenize) doc) /\
    List.length t2o = List.length all /\
    List.length o2t = List.length doc /\
    (forall k, (k < List.length doc)%nat ->
       nth_error o2t k = Some (n + Z.of_nat (subs_before tokenize doc k))) /\
    (forall j sub,
       nth_error all j = Some sub ->
       exists k tok,
         nth_error t2o j = Some (i + Z.of_nat k) /\
         nth_error doc k = Some tok /\
         In sub (sub_tokens_of tokenize tok) /\
         (subs_before tokenize doc k <= j
          < subs_before tokenize doc (S k))%nat).
Proof.
  induction doc as [|tok rest IH]; intros i n; simpl.
  - split; [reflexivity|]. split; [reflexivity|]. split; [reflexivity|].
    split; [intros k Hk; simpl in Hk; lia|].
    intros [|j] sub H; discriminate.
  - specialize (IH (i + 1) (n + len (sub_tokens_of tokenize tok))).
    destruct (split_doc tokenize rest (i + 1)
                (n + len (sub_tokens_of tokenize tok)))
      as [[o2t t2o] all].
    destruct IH as (Hall & Hlt & Hlo & Ho & Ht).
    set (sub0 := sub_tokens_of tokenize tok) in *.
    split; [rewrite Hall; reflexivity|].
    split; [rewrite !length_app, length_map, Hlt; reflexivity|].
    split; [simpl; rewrite Hlo; reflexivity|]. split.
    + intros [|k] Hk.
      * simpl. f_equal. unfold subs_before. simpl. lia.
      * simpl. rewrite Ho by (simpl in Hk; lia). f_equal.
        rewrite subs_before_S. fold sub0. unfold len. lia.
    + intros j sub Hj.
      destruct (Nat.lt_ge_cases j (List.length sub0)) as [Hlt0|Hge0].
      * rewrite nth_error_app1 in Hj by exact Hlt0.
        exists 0%nat, tok. split.
        { rewrite nth_error_app1 by (rewrite length_map; exact Hlt0).
          rewrite nth_error_map.
          destruct (nth_error sub0 j); [|discriminate].
          simpl. f_equal. lia. }
        split; [reflexivity|]. split; [exact (nth_error_In _ _ Hj)|].
        rewrite subs_before_S. fold sub0. unfold subs_before. simpl. lia.
      * rewrite nth_error_app2 in Hj by exact Hge0.
        destruct (Ht _ _ Hj) as (k & tok' & Hk1 & Hk2 & Hk3 & Hk4).
        exists (S k), tok'. split.
        { rewrite nth_error_app2 by (rewrite length_map; exact Hge0).
          rewrite length_map, Hk1. f_equal. lia. }
        split; [exact Hk2|]. split; [exact Hk3|].
        rewrite !subs_before_S. fold sub0. lia.
Qed.

(** The maps built from a document: [all_doc_tokens] is the sub-tokens of
    the document tokens in order, a token that carries "unused" counting as
    its own single sub-token; [orig_to_tok_index] has one entry per
    document token, the number of sub-tokens before it; [tok_to_orig_index]
    has one entry per sub-token, the index of the document token it came
    from, so that the sub-tokens of document token [k] are those from
    [orig_to_tok_index[k]] up to the next entry. *)
Theorem split_doc_maps (tokenize : string -> list string)
    (doc : list string) :
  let '(o2t, t2o, all) := split_doc tokenize doc 0 0 in
  all = List.concat (map (sub_tokens_of tokenize) doc) /\
  List.length t2o = List.length all /\
  List.length o2t = List.length doc /\
  (forall k, (k < List.length doc)%nat ->
     nth_error o2t k = Some (Z.of_nat (subs_before tokenize doc k))) /\
  (forall j sub,
     nth_error all j = Some sub ->
     exists k tok,
       nth_error t2o j = Some (Z.of_nat k) /\
       nth_error doc k = Some tok /\
       In sub (sub_tokens_of tokenize tok) /\
       (subs_before tokenize doc k <= j < subs_before tokenize doc (S k))%nat).
Proof.
  pose proof (split_doc_spec tokenize doc 0 0) as H.
  destruct (split_doc tokenize doc 0 0) as [[o2t t2o] all].
  destruct H as (Hall & Hlt & Hlo & Ho & Ht).
  split; [exact Hall|]. split; [exact Hlt|]. split; [exact Hlo|].
  split.
  - intros k Hk. rewrite (Ho k Hk). reflexivity.
  - intros j sub Hj. destruct (Ht j sub Hj) as (k & tok & H1 & H2).
    exists k, tok. split; [exact H1 | exact H2].
Qed.

(** When every document token gives exactly one sub-token, both maps are
    the identity and the sub-tokens line up with the document tokens. *)
Lemma split_doc_one_to_one tokenize (doc : list string) :
  (forall tok, In tok doc ->
     List.length (sub_tokens_of tokenize tok) = 1%nat) ->
  forall i n,
    let '(o2t, t2o, all) := split_doc tokenize doc i n in
    o2t = map (fun k => n + Z.of_nat k) (seq 0 (List.length doc)) /\
    t2o = map (fun k => i + Z.of_nat k) (seq 0 (List.length doc)) /\
    List.length all = List.length doc.
Proof.
  induction doc as [|tok rest IH]; intros Hone i n; simpl.
  - repeat split.
  - assert (Hrest : forall t, In t rest ->
              List.length (sub_tokens_of tokenize t) = 1%nat)
      by (intros t Ht; apply Hone; right; exact Ht).
    specialize (IH Hrest (i + 1) (n + len (sub_tokens_of tokenize tok))).
    destruct (split_doc tokenize rest (i + 1)
                (n + len (sub_tokens_of tokenize tok)))
      as [[o2t t2o] all].
    destruct IH as (Ho & Ht & Hl).
    pose proof (Hone tok (or_introl eq_refl)) as H1.
    destruct (sub_tokens_of tokenize tok) as [|s [|s' ss]] eqn:Esub;
      try discriminate.
    simpl. rewrite <- seq_shift, !map_map.
    split; [|split].
    + f_equal; [lia|]. rewrite Ho. apply map_ext. intros k.
      unfold len. simpl. lia.
    + f_equal; [lia|]. rewrite Ht. apply map_ext. intros k. lia.
    + rewrite Hl. reflexivity.
Qed.

(** ** The arrays of a feature *)

Lemma map_const_repeat {A B} (b : B) (xs : list A) :
  map (fun _ => b) xs = repeat b (List.length xs).
Proof. induction xs; simpl; congruence. Qed.

Lemma map_Some_length {A B} (f : A -> option B) (xs : list A) (ys : list B) :
  map f xs = map Some ys -> List.length ys = List.length xs.
Proof.
  intros H. apply (f_equal (@List.length _)) in H.
  rewrite !length_map in H. symmetry. exact H.
Qed.

Lemma pad_length (xs : list Z) (n : Z) :
  len (pad xs n) = n -> len xs <= n /\
  pad xs n = xs ++ repeat 0 (Z.to_nat n - List.length xs).
Proof.
  unfold pad, len. rewrite length_app, repeat_length. intros H.
  assert (Hle : Z.of_nat (List.length xs) <= n) by lia.
  split; [exact Hle|]. f_equal. f_equal. lia.
Qed.

(** In every feature of the result the four arrays have [max_seq_length]
    entries and the tokens fit into them; the tokens are [CLS], the query
    tokens, [SEP], the window and [SEP]; [input_mask] is 1 on the tokens
    and 0 on the padding; [segment_ids] is 0 up to the first [SEP], 1 on
    the window and the last [SEP], and 0 on the padding. *)
Theorem feature_arrays tokenize vocab fuel examples max_seq_length
    doc_stride max_query_length is_training fs f :
  convert_examples_to_features tokenize vocab fuel examples max_seq_length
    doc_stride max_query_length is_training = Some fs ->
  In f fs ->
  exists ex window,
    In ex examples /\
    let query_tokens :=
      query_tokens_of tokenize (question_text ex) max_query_length in
    let n := List.length (tokens f) in
    tokens f = "[CLS]"%string :: query_tokens ++ ["[SEP]"%string]
               ++ window ++ ["[SEP]"%string] /\
    Z.of_nat n <= max_seq_length /\
    len (input_ids f) = max_seq_length /\
    len (input_mask f) = max_seq_length /\
    len (segment_ids f) = max_seq_length /\
    len (answer_position_mask f) = max_seq_length /\
    input_mask f = repeat 1 n ++ repeat 0 (Z.to_nat max_seq_length - n) /\
    segment_ids f
    = repeat 0 (List.length query_tokens + 2)
      ++ repeat 1 (List.length window + 1)
      ++ repeat 0 (Z.to_nat max_seq_length - n).
Proof.
  intros H Hin. unfold convert_examples_to_features in H.
  destruct (examples_loop_origin _ _ _ _ _ _ _ _ _ _ _ _ H Hin)
    as (ex & j & o2t & t2o & all & tp & spans & uid' & k & d
        & Hex & _ & _ & _ & _ & Hk).
  apply span_feature_Kept_fields in Hk. cbv zeta in Hk.
  destruct Hk as (origs & window & ids & _ & _ & Hids & Hpad & _ & _ & _
                  & Htok & _ & _ & Hii & Him & Hseg & Hmask).
  exists ex, window. split; [exact (nth_error_In _ _ Hex)|]. cbv zeta.
  set (qt := query_tokens_of tokenize (question_text ex) max_query_length)
    in *.
  assert (Hn : List.length ids = List.length (tokens f)).
  { rewrite Htok. exact (map_Some_length _ _ _ Hids). }
  destruct (pad_length ids max_seq_length Hpad) as [Hle Hpad'].
  assert (Hlen_tok : List.length (tokens f)
                     = (List.length qt + 2 + (List.length window + 1))%nat).
  { rewrite Htok. simpl. rewrite !length_app. simpl. lia. }
  split; [rewrite Htok; simpl; rewrite <- app_assoc; reflexivity|].
  split; [unfold len in Hle; lia|].
  split; [rewrite Hii; exact Hpad|].
  assert (Hpad1 : pad (map (fun _ => 1) ids) max_seq_length
                  = repeat 1 (List.length (tokens f))
                    ++ repeat 0 (Z.to_nat max_seq_length
                                 - List.length (tokens f))).
  { unfold pad, len. rewrite length_map, map_const_repeat, Hn.
    f_equal. f_equal. unfold len in Hle. lia. }
  assert (Hseg1 : pad (map (fun _ => 0)
                         ("[CLS]"%string :: qt ++ ["[SEP]"%string])
                       ++ map (fun _ => 1) window ++ [1]) max_seq_length
                  = repeat 0 (List.length qt + 2)
                    ++ repeat 1 (List.length window + 1)
                    ++ repeat 0 (Z.to_nat max_seq_length
                                 - List.length (tokens f))).
  { unfold pad, len. rewrite !map_const_repeat.
    rewrite !length_app, !repeat_length. simpl List.length.
    rewrite length_app. simpl List.length.
    replace (S (List.length qt + 1)) with (List.length qt + 2)%nat by lia.
    replace (repeat 1 (List.length window) ++ [1])
      with (repeat 1 (List.length window + 1))
      by (rewrite repeat_app; reflexivity).
    rewrite <- app_assoc. f_equal. f_equal. f_equal.
    rewrite Hlen_tok. lia. }
  split.
  { rewrite Him, Hpad1. unfold len. rewrite length_app, !repeat_length.
    unfold len in Hle. lia. }
  split.
  { rewrite Hseg, Hseg1. unfold len. rewrite !length_app, !repeat_length.
    unfold len in Hle. lia. }
  split; [exact Hmask|].
  split; [rewrite Him; exact Hpad1 | rewrite Hseg; exact Hseg1].
Qed.

Lemma feature_arrays_witness :
  exists f,
    convert_examples_to_features sample_tokenize sample_vocab 10
      [mkExample "q" ["a"; "[unused1]"; "b"]%string None] 10 2 5 false
    = Some [f] /\
    exists ex window,
      In ex [mkExample "q" ["a"; "[unused1]"; "b"]%string None] /\
      let query_tokens :=
        query_tokens_of sample_tokenize (question_text ex) 5 in
      let n := List.length (tokens f) in
      tokens f = "[CLS]"%string :: query_tokens ++ ["[SEP]"%string]
                 ++ window ++ ["[SEP]"%string] /\
      Z.of_nat n <= 10 /\
      len (input_ids f) = 10 /\
      len (input_mask f) = 10 /\
      len (segment_ids f) = 10 /\
      len (answer_position_mask f) = 10 /\
      input_mask f = repeat 1 n ++ repeat 0 (Z.to_nat 10 - n) /\
      segment_ids f
      = repeat 0 (List.length query_tokens + 2)
        ++ repeat 1 (List.length window + 1)
        ++ repeat 0 (Z.to_nat 10 - n).
Proof.
  eexists. split; [vm_compute; reflexivity|].
  eapply (feature_arrays sample_tokenize sample_vocab 10
            [mkExample "q" ["a"; "[unused1]"; "b"]%string None] 10 2 5 false).
  - vm_compute. reflexivity.
  - left. reflexivity.
Defined.

(** ** Unique ids *)

Lemma span_feature_uid vocab is_training max_seq_length ex query_tokens
    tok_to_orig_index all_doc_tokens tok_position spans uid ex_index
    span_index doc_span f :
  span_feature vocab is_training max_seq_length ex query_tokens
    tok_to_orig_index all_doc_tokens tok_position spans uid ex_index
    span_index doc_span = Kept f ->
  unique_id f = uid.
Proof.
  intros H. apply span_feature_Kept_fields in H. cbv zeta in H.
  destruct H as (origs & window & ids & _ & _ & _ & _ & Hu & _). exact Hu.
Qed.

Lemma consecutive_cons (uid : Z) (n : nat) :
  map (fun i => uid + Z.of_nat i) (seq 0 (S n))
  = uid :: map (fun i => uid + 1 + Z.of_nat i) (seq 0 n).
Proof.
  simpl. f_equal; [lia|]. rewrite <- seq_shift, map_map.
  apply map_ext. intros i. lia.
Qed.

Lemma consecutive_shift (a : Z) (n m : nat) :
  forall s,
    map (fun i => a + Z.of_nat n + Z.of_nat i) (seq s m)
    = map (fun i => a + Z.of_nat i) (seq (n + s) m).
Proof.
  induction m as [|m IH]; intros s; simpl; [reflexivity|].
  f_equal; [lia|].
  replace (S (n + s)) with (n + S s)%nat by lia. apply IH.
Qed.

Lemma span_loop_uids vocab is_training max_seq_length ex query_tokens
    tok_to_orig_index all_doc_tokens tok_position spans ex_index :
  forall todo uid span_index fs u,
    span_loop vocab is_training max_seq_length ex query_tokens
      tok_to_orig_index all_doc_tokens tok_position spans uid ex_index
      span_index todo = Some (fs, u) ->
    u = uid + len fs /\
    map unique_id fs
    = map (fun i => uid + Z.of_nat i) (seq 0 (List.length fs)).
Proof.
  induction todo as [|d rest IH]; intros uid si fs u H; simpl in H.
  - inversion H; subst. split; [unfold len; simpl; lia | reflexivity].
  - destruct (span_feature _ _ _ _ _ _ _ _ _ uid ex_index si d) as [| |g] eqn:E.
    + discriminate.
    + exact (IH _ _ _ _ H).
    + destruct (span_loop _ _ _ _ _ _ _ _ _ (uid + 1) ex_index (S si) rest)
        as [[fs' u']|] eqn:Hrest; [|discriminate].
      simpl in H. inversion H; subst.
      destruct (IH _ _ _ _ Hrest) as [Hu Hm].
      split; [unfold len in *; simpl List.length; lia|].
      simpl List.length. rewrite consecutive_cons. simpl.
      rewrite (span_feature_uid _ _ _ _ _ _ _ _ _ _ _ _ _ _ E), Hm.
      reflexivity.
Qed.

Lemma examples_loop_uids tokenize vocab fuel is_training max_seq_length
    doc_stride max_query_length :
  forall examples uid ex_index fs,
    examples_loop tokenize vocab fuel is_training max_seq_length doc_stride
      max_query_length uid ex_index examples = Some fs ->
    map unique_id fs
    = map (fun i => uid + Z.of_nat i) (seq 0 (List.length fs)).
Proof.
  induction examples as [|ex rest IH]; intros uid ei fs H; simpl in H.
  - inversion H. reflexivity.
  - destruct (example_features _ _ _ _ _ _ _ uid ei ex) as [[fs1 uid1]|] eqn:E;
      [|discriminate].
    destruct (examples_loop _ _ _ _ _ _ _ uid1 (S ei) rest) as [fs2|] eqn:E2;
      [|discriminate].
    simpl in H. inversion H; subst.
    assert (Hone : uid1 = uid + len fs1 /\
              map unique_id fs1
              = map (fun i => uid + Z.of_nat i) (seq 0 (List.length fs1))).
    { unfold example_features in E.
      destruct (split_doc tokenize (doc_tokens ex) 0 0) as [[o2t t2o] all].
      destruct (_ && _); [discriminate|].
      destruct (doc_spans _ _ _ _) as [spans|]; [|discriminate].
      exact (span_loop_uids _ _ _ _ _ _ _ _ _ _ _ _ _ _ _ E). }
    destruct Hone as [-> H1].
    rewrite map_app, length_app, seq_app, map_app, H1, (IH _ _ _ E2).
    f_equal. unfold len.
    rewrite (consecutive_shift uid (List.length fs1) (List.length fs2) 0).
    rewrite Nat.add_0_r. reflexivity.
Qed.

Lemma NoDup_map_injective {A B} (f : A -> B) (l : list A) :
  (forall a b, f a = f b -> a = b) -> NoDup l -> NoDup (map f l).
Proof.
  intros Hinj Hnd. induction Hnd as [|x l Hx Hnd IH]; simpl; constructor.
  - intros Hin. apply in_map_iff in Hin. destruct Hin as (y & E & Hy).
    apply Hinj in E. subst y. exact (Hx Hy).
  - exact IH.
Qed.

(** The features of the result carry the unique ids 1000000000,
    1000000001, ... in order: a dropped window uses up no id, and no two
    features share one. *)
Theorem feature_unique_ids tokenize vocab fuel examples max_seq_length
    doc_stride max_query_length is_training fs :
  convert_examples_to_features tokenize vocab fuel examples max_seq_length
    doc_stride max_query_length is_training = Some fs ->
  map unique_id fs
  = map (fun i => 1000000000 + Z.of_nat i) (seq 0 (List.length fs)) /\
  NoDup (map unique_id fs).
Proof.
  intros H. unfold convert_examples_to_features in H.
  apply examples_loop_uids in H. split; [exact H|].
  rewrite H. apply NoDup_map_injective; [|apply seq_NoDup].
  intros a b E. lia.
Qed.

Lemma feature_unique_ids_witness :
  exists fs,
    convert_examples_to_features sample_tokenize sample_vocab 5
      [shifted_example] 6 1 5 true = Some fs /\
    map unique_id fs
    = map (fun i => 1000000000 + Z.of_nat i) (seq 0 (List.length fs)) /\
    NoDup (map unique_id fs).
Proof.
  eexists. split; [vm_compute; reflexivity|].
  apply (feature_unique_ids sample_tokenize sample_vocab 5
           [shifted_example] 6 1 5 true).
  vm_compute. reflexivity.
Defined.
